(** * cocoscrapers: plugin discovery and the shared thread pool

    A shallow embedding of

    - [cocoscrapers/__init__.py]: [_load_module], [sources],
      [enabledCheck], [pack_sources];
    - [cocoscrapers/modules/Thread_pool.py]: [tp], [run_and_wait],
      [run_and_wait_multi], [run_pipelined], [shutdown_executor].

    Python code that can raise is written in a state-and-exception monad.
    An exception records whether its class derives from [Exception];
    [try: ... except Exception: ...] is [try_except], which catches the
    exceptions of class [Exception] and lets [SystemExit],
    [KeyboardInterrupt] and [GeneratorExit] through, as every handler of
    the two files does.

    A [ThreadPoolExecutor] is a list of work items indexed by futures.  A
    submitted call is a computation on a world [W] (the log, for the loads
    of [sources]); a worker runs it in one step, and the order in which the
    workers finish is a parameter (a schedule) of every operation that
    blocks: [wait], [as_completed], the iterator of [map].  Statements are
    proved for every schedule. *)

From stdpp Require Import base numbers list strings.

#[local] Set Warnings "-register-all".
Local Open Scope string_scope.
Local Open Scope list_scope.

(** ** Python values, exceptions, outcomes *)

(** The Python values of the model: [None], booleans, integers, strings,
    tuples, lists, and plain objects ([PObj n] is an instance of [object]
    with identity [n], neither iterable nor path-like).  Bytes, sets,
    dicts and generators are not among them. *)
Inductive pyval : Type :=
| PNone
| PBool (b : bool)
| PInt (z : Z)
| PStr (s : string)
| PTuple (l : list pyval)
| PList (l : list pyval)
| PObj (n : nat).

(** [bool(v)]: what [if v:] tests. *)
Definition truthy (v : pyval) : bool :=
  match v with
  | PNone => false
  | PBool b => b
  | PInt z => negb (Z.eqb z 0)
  | PStr s => negb (String.eqb s "")
  | PTuple l | PList l => negb (Nat.eqb (length l) 0)
  | PObj _ => true
  end.

(** [v == s] for a string literal [s]. *)
Definition py_eq_str (v : pyval) (s : string) : bool :=
  match v with
  | PStr t => String.eqb t s
  | _ => false
  end.

(** An exception: the name of its class and its message.  [Exception]
    builds the instances of the classes that derive from [Exception],
    [BaseException] the instances of the others ([SystemExit],
    [KeyboardInterrupt], [GeneratorExit]). *)
Inductive exc : Type :=
| Exception (type msg : string)
| BaseException (type msg : string).

Definition exc_type (e : exc) : string :=
  match e with
  | Exception type _ | BaseException type _ => type
  end.

(** [str(e)] *)
Definition exc_msg (e : exc) : string :=
  match e with
  | Exception _ msg | BaseException _ msg => msg
  end.

(** [isinstance(e, Exception)]: what an [except Exception] clause tests. *)
Definition is_exception (e : exc) : bool :=
  match e with
  | Exception _ _ => true
  | BaseException _ _ => false
  end.

Definition SystemExit := BaseException "SystemExit".
Definition TypeError := Exception "TypeError".
Definition IndexError := Exception "IndexError".
Definition AttributeError := Exception "AttributeError".
Definition RuntimeError := Exception "RuntimeError".
Definition CancelledError := Exception "CancelledError" "".

Inductive outcome (A : Type) : Type :=
| Return (a : A)
| Raise (e : exc).
Arguments Return {A} a.
Arguments Raise {A} e.

(** The outcome is a value, or an exception that [except Exception]
    catches. *)
Definition catchable {A} (o : outcome A) : bool :=
  match o with
  | Return _ => true
  | Raise e => is_exception e
  end.

(** [type(v).__name__]; [PObj n] is an instance of [object]. *)
Definition py_type_name (v : pyval) : string :=
  match v with
  | PNone => "NoneType"
  | PBool _ => "bool"
  | PInt _ => "int"
  | PStr _ => "str"
  | PTuple _ => "tuple"
  | PList _ => "list"
  | PObj _ => "object"
  end.

(** [iter(v)], forced: the elements a [for] loop over [v] visits. *)
Fixpoint chars (s : string) : list pyval :=
  match s with
  | EmptyString => []
  | String c r => PStr (String c EmptyString) :: chars r
  end.

Definition py_iter (v : pyval) : outcome (list pyval) :=
  match v with
  | PTuple l | PList l => Return l
  | PStr s => Return (chars s)
  | _ => Raise (TypeError ("'" +:+ py_type_name v +:+ "' object is not iterable"))
  end.

(** ** The monad of Python statements over a state [S] *)

Definition M (S A : Type) : Type := S -> outcome A * S.

Definition ret {S A} (a : A) : M S A := fun s => (Return a, s).
Definition raise {S A} (e : exc) : M S A := fun s => (Raise e, s).
Definition bind {S A B} (m : M S A) (k : A -> M S B) : M S B :=
  fun s => match m s with
           | (Return a, s') => k a s'
           | (Raise e, s') => (Raise e, s')
           end.
Definition of_outcome {S A} (o : outcome A) : M S A := fun s => (o, s).

(** [try: m  except Exception as e: h e]: an exception that is not of
    class [Exception] is not caught. *)
Definition try_except {S A} (m : M S A) (h : exc -> M S A) : M S A :=
  fun s => match m s with
           | (Return a, s') => (Return a, s')
           | (Raise e, s') => if is_exception e then h e s' else (Raise e, s')
           end.

Declare Scope py_scope.
Delimit Scope py_scope with py.
Notation "x <- m ;; k" := (bind m (fun x => k))
  (at level 100, m at next level, right associativity) : py_scope.
Notation "m1 ;;; m2" := (bind m1 (fun _ => m2))
  (at level 100, right associativity) : py_scope.
Local Open Scope py_scope.

(** [for x in l: acc = body x acc] *)
Fixpoint for_list {S A B} (l : list A) (body : A -> B -> M S B) (acc : B) : M S B :=
  match l with
  | [] => ret acc
  | x :: r => acc' <- body x acc ;; for_list r body acc'
  end.

(** A generator: the values it yields, ended by exhaustion or by an
    exception raised while it is advanced. *)
Inductive gen (A : Type) : Type :=
| GStop
| GYield (a : A) (rest : gen A)
| GRaise (e : exc).
Arguments GStop {A}.
Arguments GYield {A} a rest.
Arguments GRaise {A} e.

Fixpoint for_gen {S A B} (g : gen A) (body : A -> B -> M S B) (acc : B) : M S B :=
  match g with
  | GStop => ret acc
  | GYield x r => acc' <- body x acc ;; for_gen r body acc'
  | GRaise e => raise e
  end.

Fixpoint gen_of_list {A} (l : list A) : gen A :=
  match l with
  | [] => GStop
  | x :: r => GYield x (gen_of_list r)
  end.

(** [g] yields the values of [pre], one after the other, and then [x]. *)
Fixpoint yields_after {A} (g : gen A) (pre : list A) (x : A) : Prop :=
  match g, pre with
  | GYield y _, [] => y = x
  | GYield y r, z :: pre' => y = z /\ yields_after r pre' x
  | _, _ => False
  end.

(** [x] is yielded by [g] (before [g] stops or raises). *)
Fixpoint yields {A} (g : gen A) (x : A) : Prop :=
  match g with
  | GYield y r => y = x \/ yields r x
  | _ => False
  end.

(** The values yielded when the generator runs to exhaustion; [None] when
    it raises on the way. *)
Fixpoint gen_list {A} (g : gen A) : option (list A) :=
  match g with
  | GStop => Some []
  | GYield x r => option_map (cons x) (gen_list r)
  | GRaise _ => None
  end.

(** ** The logger *)

Inductive log_level : Type := LOGDEBUG | LOGINFO | LOGWARNING | LOGERROR.

Inductive log_entry : Type :=
| LogLine (level : log_level) (msg : string)
| LogTraceback (e : exc).

Definition log := list log_entry.

(** Modelled from the spec: [cocoscrapers.modules.log_utils] is not among
    the sources.  The spec's Logger "receives warning-level entries" and
    "must not change control flow": [log_utils.log(msg, level)] appends a
    line and returns. *)
Definition log_utils_log (msg : string) (level : log_level) : M log unit :=
  fun l => (Return tt, l ++ [LogLine level msg]).

(** Modelled from the spec: [log_utils.error()], called inside a handler,
    records the exception being handled and returns. *)
Definition log_utils_error (e : exc) : M log unit :=
  fun l => (Return tt, l ++ [LogTraceback e]).

(** ** concurrent.futures.ThreadPoolExecutor *)

(** The order in which a set of futures completes, chosen by the
    scheduler: [sched] picks, one after the other, which of the remaining
    futures finishes next; futures left when [sched] is used up finish in
    submission order. *)
Fixpoint completion_order {A} (sched : list nat) (l : list A) : list A :=
  match sched with
  | [] => l
  | n :: sched' =>
      match l !! (n `mod` length l) with
      | Some x => x :: completion_order sched' (delete (n `mod` length l) l)
      | None => l
      end
  end.

(** A future is the index of its work item in the executor. *)
Abbreviation future := nat (only parsing).

Section Executor.
Context {W R : Type}.

(** A submitted call, [fn] applied to its arguments: it runs against the
    world [W] and returns or raises. *)
Definition call : Type := M W R.

Inductive future_state : Type :=
| PENDING
| FINISHED (o : outcome R)
| CANCELLED.

Record work_item : Type := WorkItem { wi_call : call; wi_state : future_state }.

Record ThreadPoolExecutor : Type := mkExecutor {
  max_workers : nat;
  shutdown_flag : bool;
  work_items : list work_item
}.

Definition pool : Type := (ThreadPoolExecutor * W)%type.

Definition new_executor (n : nat) : ThreadPoolExecutor := mkExecutor n false [].

Definition set_items (ex : ThreadPoolExecutor) (l : list work_item) : ThreadPoolExecutor :=
  mkExecutor (max_workers ex) (shutdown_flag ex) l.

(** [executor.submit(fn, args)] *)
Definition submit (c : call) : M pool future :=
  fun p =>
    if shutdown_flag p.1
    then (Raise (RuntimeError "cannot schedule new futures after shutdown"), p)
    else (Return (length (work_items p.1)),
          (set_items p.1 (work_items p.1 ++ [WorkItem c PENDING]), p.2)).

(** A worker runs the call of future [f] to its end. *)
Definition complete (f : future) (p : pool) : pool :=
  match work_items p.1 !! f with
  | Some (WorkItem c PENDING) =>
      let '(o, w') := c p.2 in
      (set_items p.1 (<[f := WorkItem c (FINISHED o)]> (work_items p.1)), w')
  | _ => p
  end.

(** The workers finish the futures [fs], in that order. *)
Definition settle (fs : list future) (p : pool) : pool :=
  foldl (fun q f => complete f q) p fs.

(** [future.cancel()]: only a call that has not started is cancelled. *)
Definition cancel (f : future) (p : pool) : pool :=
  match work_items p.1 !! f with
  | Some (WorkItem c PENDING) =>
      (set_items p.1 (<[f := WorkItem c CANCELLED]> (work_items p.1)), p.2)
  | _ => p
  end.

(** [future.result()]: blocks until the call is done, then returns its
    value or re-raises its exception. *)
Definition result (f : future) : M pool R :=
  fun p =>
    let p' := complete f p in
    match work_items p'.1 !! f with
    | Some (WorkItem _ (FINISHED o)) => (o, p')
    | Some (WorkItem _ CANCELLED) => (Raise CancelledError, p')
    | _ => (Raise (RuntimeError "no such future"), p')
    end.

(** [wait(fs)]: blocks until every future of [fs] is done.  Work that was
    submitted earlier and is not done yet is left as it is: a call runs in
    one step here, so what the workers do to it meanwhile is not part of
    the state, and the statements about the world after a wait are made
    for a pool with no such work. *)
Definition wait (sched : list nat) (fs : list future) : M pool unit :=
  fun p => (Return tt, settle (completion_order sched fs) p).

(** What [as_completed] waits for before it yields [f]: [f] is done. *)
Definition await (f : future) : M pool unit :=
  fun p => (Return tt, complete f p).

(** [for f in as_completed(fs): acc = body f acc]: the futures are
    handed to the body as they complete. *)
Definition for_as_completed {B} (sched : list nat) (fs : list future)
    (body : future -> B -> M pool B) (acc : B) : M pool B :=
  for_list (completion_order sched fs)
    (fun f acc => await f ;;; body f acc) acc.

(** [executor.shutdown(wait=True)] *)
Definition shutdown (p : pool) : pool :=
  let p' := settle (seq 0 (length (work_items p.1))) p in
  (mkExecutor (max_workers p'.1) true (work_items p'.1), p'.2).

(** [with ThreadPoolExecutor(max_workers=n) as executor: body] *)
Definition with_executor {A} (n : nat) (body : M pool A) : M W A :=
  fun w =>
    let '(r, p) := body (new_executor n, w) in
    (r, (shutdown p).2).

(** [[executor.submit(fn, x) for x in l]] *)
Fixpoint submit_all (cs : list call) : M pool (list future) :=
  match cs with
  | [] => ret []
  | c :: r => f <- submit c ;; fs <- submit_all r ;; ret (f :: fs)
  end.

(** [executor.map(fn, iterable)]: every call is submitted at once; the
    generator returned holds the futures not yet yielded. *)
Record result_iterator : Type := ResultIterator { remaining : list future }.

Definition Executor_map {A} (fn : A -> call) (iterable : list A) : M pool result_iterator :=
  fs <- submit_all (map fn iterable) ;;
  ret (ResultIterator fs).

Inductive step : Type :=
| Yield (v : R)
| Throw (e : exc)
| StopIteration.

(** [next(it)]: the result of the first remaining future, once it is
    done; [bg] are the futures the workers finish while the caller blocks.
    When the future raised, the generator cancels the futures that remain
    and is finished; [cancel] stops only a call that has not started, so
    the calls that the workers have taken up by then, which are the ones
    of [bg], are not affected. *)
Definition next (bg : list future) (it : result_iterator) (p : pool)
  : step * result_iterator * pool :=
  match remaining it with
  | [] => (StopIteration, it, p)
  | f :: rest =>
      match result f (settle bg p) with
      | (Return v, p') => (Yield v, ResultIterator rest, p')
      | (Raise e, p') => (Throw e, ResultIterator [], foldl (fun q g => cancel g q) p' rest)
      end
  end.


(** [list(it)] *)
Fixpoint drain (fuel : nat) (bgs : list (list future)) (it : result_iterator)
  : M pool (list R) :=
  fun p =>
    match fuel with
    | 0 => (Return [], p)
    | S k =>
        match next (hd [] bgs) it p with
        | (StopIteration, _, p') => (Return [], p')
        | (Throw e, _, p') => (Raise e, p')
        | (Yield v, it', p') =>
            match drain k (tl bgs) it' p' with
            | (Return vs, p'') => (Return (v :: vs), p'')
            | (Raise e, p'') => (Raise e, p'')
            end
        end
    end.

Definition py_list (bgs : list (list future)) (it : result_iterator) : M pool (list R) :=
  drain (S (length (remaining it))) bgs it.

End Executor.

Arguments call : clear implicits.
Arguments work_item : clear implicits.
Arguments ThreadPoolExecutor : clear implicits.
Arguments pool : clear implicits.
Arguments future_state : clear implicits.
Arguments result_iterator : clear implicits.
Arguments step : clear implicits.

(** A local list that a loop body appends to: it lives in the state, so
    what was appended before an exception stays appended. *)
Definition lift {S L A} (m : M S A) : M (S * L) A :=
  fun sl => let '(r, s') := m sl.1 in (r, (s', sl.2)).

Definition local_append {S X} (x : X) : M (S * list X) unit :=
  fun sl => (Return tt, (sl.1, sl.2 ++ [x])).

Definition with_local {S L A} (l0 : L) (m : M (S * L) A) : M S L :=
  fun s => match m (s, l0) with
           | (Return _, (s', l)) => (Return l, s')
           | (Raise e, (s', _)) => (Raise e, s')
           end.

(** ** cocoscrapers/__init__.py *)

(** What the module loader hands back: a module's [source] class with its
    optional [pack_capable] attribute (reading a missing attribute
    raises). *)
Record Source : Type := mkSource {
  source_name : string;
  pack_capable : outcome pyval
}.

Record PyModule : Type := mkModule { source : outcome Source }.

(** A finder as [walk_packages] yields it, with the two ways the file
    loads a module through it:
    [loader.find_spec(n).loader.load_module(n)] and
    [loader.find_module(n).load_module(n)]. *)
Record Loader : Type := mkLoader {
  find_spec_load_module : string -> outcome PyModule;
  find_module_load_module : string -> outcome PyModule
}.

(** [pkgutil.ModuleInfo] *)
Record ModuleInfo : Type := mkModuleInfo {
  module_finder : Loader;
  name : string;
  ispkg : bool
}.

(** What the functions of the file read from outside: the settings store
    ([cocoscrapers.modules.control.setting]), the directory of [__file__],
    [os.walk] and [pkgutil.walk_packages]. *)
Record Env : Type := mkEnv {
  getSetting : string -> outcome pyval;
  debug_enabled_at_import : pyval;
  file_dirname : string;
  osWalk : string -> list (string * list string * list string);
  walk_packages : list string -> gen ModuleInfo;
  (** A lookup in the settings store that fails raises an exception of
      class [Exception]: the store does not exit the interpreter. *)
  getSetting_raises_Exception :
    forall key e, getSetting key = Raise e -> is_exception e = true
}.

(** [debug = getSetting("debug.enabled") == "true"], evaluated once when
    the module is imported. *)
Definition debug (env : Env) : bool := py_eq_str (debug_enabled_at_import env) "true".

Definition sourceFolder : string := "sources_cocoscrapers".

Fixpoint ends_with_slash (s : string) : bool :=
  match s with
  | EmptyString => false
  | String c EmptyString => Ascii.eqb c (Ascii.ascii_of_nat 47)
  | String _ r => ends_with_slash r
  end.

(** [os.path.join(a, b)] (posixpath) *)
Definition osPath_join (a b : string) : string :=
  if String.prefix "/" b then b
  else if String.eqb a "" || ends_with_slash a then a +:+ b
  else a +:+ "/" +:+ b.

(** [os.path.join(a, v)] for a Python value [v]: a [TypeError] unless [v]
    is a string. *)
Definition osPath_join_py (a : string) (v : pyval) : outcome string :=
  match v with
  | PStr b => Return (osPath_join a b)
  | _ => Raise (TypeError ("join() argument must be str, bytes, or os.PathLike object, not '"
                           +:+ py_type_name v +:+ "'"))
  end.

(** [l[0]] *)
Definition index0 {A} (l : list A) : outcome A :=
  match l with
  | x :: _ => Return x
  | [] => Raise (IndexError "list index out of range")
  end.

Definition quote : string := String (Ascii.ascii_of_nat 34) EmptyString.

(** ['Error: Loading module: "%s": %s' % (module_name, e)] *)
Definition load_error_message (module_name : string) (e : exc) : string :=
  "Error: Loading module: " +:+ quote +:+ module_name +:+ quote +:+ ": " +:+ exc_msg e.

Definition _load_module (env : Env) (loader : Loader) (module_name : string)
  : M log (option (string * Source)) :=
  try_except
    (module <- of_outcome (find_spec_load_module loader module_name) ;;
     src <- of_outcome (source module) ;;
     ret (Some (module_name, src)))
    (fun e =>
       (if debug env
        then log_utils_log (load_error_message module_name e) LOGWARNING
        else ret tt) ;;;
       ret None).

Definition enabledCheck (env : Env) (module_name : string) : M log bool :=
  try_except
    (v <- of_outcome (getSetting env ("provider." +:+ module_name)) ;;
     if py_eq_str v "true" then ret true else ret false)
    (fun e => log_utils_error e ;;; ret true).

(** The body of the inner loop of [sources]: packages are skipped, and a
    module is kept when [ret_all or enabledCheck(module_name)]. *)
Definition keep_module (env : Env) (ret_all : bool) (mi : ModuleInfo)
    (modules_to_load : list (Loader * string)) : M log (list (Loader * string)) :=
  if ispkg mi then ret modules_to_load
  else
    c <- (if ret_all then ret true else enabledCheck env (name mi)) ;;
    if c then ret (modules_to_load ++ [(module_finder mi, name mi)])
    else ret modules_to_load.

(** The two nested loops of [sources] that fill [modules_to_load]. *)
Definition collect_modules (env : Env) (sourceFolderLocation : string)
    (sourceSubFolders : list pyval) (ret_all : bool)
  : M log (list (Loader * string)) :=
  for_list sourceSubFolders
    (fun i modules_to_load =>
       p <- of_outcome (osPath_join_py sourceFolderLocation i) ;;
       for_gen (walk_packages env [p]) (keep_module env ret_all) modules_to_load)
    [].

(** The body of the [as_completed] loop of [sources]:
    [result = future.result()], appended when it is not [None]. *)
Definition append_result (future : future) (sourceDict : list (string * Source))
  : M (pool log (option (string * Source))) (list (string * Source)) :=
  result <- result future ;;
  match result with
  | Some r => ret (sourceDict ++ [r])
  | None => ret sourceDict
  end.

(** The [with ThreadPoolExecutor(max_workers=10)] block of [sources]. *)
Definition load_in_parallel (env : Env) (sched : list nat)
    (modules_to_load : list (Loader * string)) (sourceDict : list (string * Source))
  : M log (list (string * Source)) :=
  with_executor 10
    (futures <- submit_all
                  (map (fun m => _load_module env m.1 m.2) modules_to_load) ;;
     for_as_completed sched futures append_result sourceDict).

(** The [try] block of [sources(specified_folders=None, ret_all=False)]. *)
Definition sources_try (env : Env) (sched : list nat)
    (specified_folders : pyval) (ret_all : bool)
  : M log (list (string * Source)) :=
  let sourceDict := [] in
  let sourceFolderLocation := osPath_join (file_dirname env) sourceFolder in
  sourceSubFolders <-
    of_outcome (index0 (map (fun x => PList (map PStr x.1.2))
                            (osWalk env sourceFolderLocation))) ;;
  let sourceSubFolders :=
    if truthy specified_folders then specified_folders else sourceSubFolders in
  folders <- of_outcome (py_iter sourceSubFolders) ;;
  modules_to_load <- collect_modules env sourceFolderLocation folders ret_all ;;
  load_in_parallel env sched modules_to_load sourceDict.

Definition sources (env : Env) (sched : list nat)
    (specified_folders : pyval) (ret_all : bool)
  : M log (list (string * Source)) :=
  try_except
    (sources_try env sched specified_folders ret_all)
    (fun e => log_utils_error e ;;; ret []).

(** The body of the loop of [pack_sources]. *)
Definition pack_capable_module (mi : ModuleInfo) (sourceList : list string)
  : M log (list string) :=
  if ispkg mi then ret sourceList
  else
    module <- of_outcome (find_module_load_module (module_finder mi) (name mi)) ;;
    src <- of_outcome (source module) ;;
    flag <- of_outcome (pack_capable src) ;;
    if truthy flag then ret (sourceList ++ [name mi]) else ret sourceList.

(** [pack_sources(sourceSubFolder="torrents")] returns its list, or
    nothing ([None]) when it falls off the end of its handler. *)
Definition pack_sources (env : Env) (sourceSubFolder : pyval)
  : M log (option (list string)) :=
  try_except
    (let sourceList := [] in
     let sourceFolderLocation := osPath_join (file_dirname env) sourceFolder in
     p <- of_outcome (osPath_join_py sourceFolderLocation sourceSubFolder) ;;
     sourceList <- for_gen (walk_packages env [p]) pack_capable_module sourceList ;;
     ret (Some sourceList))
    (fun e => log_utils_error e ;;; ret None).

(** ** cocoscrapers/modules/Thread_pool.py *)

Section ThreadPool.
Context {W : Type}.

(** [tp = ThreadPoolExecutor(max_workers=40)]: the executor component of
    the state the functions below run in. *)
Definition tp : ThreadPoolExecutor W pyval := new_executor 40.

Definition run_and_wait (sched : list nat) (func : pyval -> call W pyval)
    (iterable : list pyval) : M (pool W pyval) pyval :=
  futures <- for_list iterable
               (fun item futures =>
                  future <- submit (func item) ;;
                  ret (futures ++ [future]))
               [] ;;
  wait sched futures ;;;
  ret PNone.

(** [lambda args: func( *args)]; for an [args] that cannot be unpacked the
    [TypeError] carries the message of [iter] here, where Python's names
    the callee. *)
Definition star_args (func : list pyval -> call W pyval) : pyval -> call W pyval :=
  fun args => l <- of_outcome (py_iter args) ;; func l.

Definition run_and_wait_multi (func : list pyval -> call W pyval)
    (iterable : list pyval) : M (pool W pyval) (result_iterator) :=
  results <- Executor_map (star_args func) iterable ;;
  ret results.

(** The [try] statement in the loop of [run_pipelined]: the result of a
    producer is forwarded to consumer tasks, whose futures are appended to
    the local list [consumer_futures]; an exception is dropped. *)
Definition forward_results (consumer_func : pyval -> call W pyval) (future : nat)
  : M (pool W pyval * list nat) unit :=
  try_except
    (results <- lift (result future) ;;
     if truthy results then
       match results with
       | PList l =>
           for_list l
             (fun result _ =>
                f <- lift (submit (consumer_func result)) ;;
                local_append f)
             tt
       | _ =>
           f <- lift (submit (consumer_func results)) ;;
           local_append f
       end
     else ret tt)
    (fun _ => ret tt).

Definition run_pipelined (sched1 sched2 : list nat)
    (producer_func consumer_func : pyval -> call W pyval) (items : list pyval)
  : M (pool W pyval) pyval :=
  futures <- submit_all (map producer_func items) ;;
  consumer_futures <-
    with_local []
      (for_list (completion_order sched1 futures)
         (fun future _ =>
            lift (await future) ;;;
            forward_results consumer_func future)
         tt) ;;
  (if negb (Nat.eqb (length consumer_futures) 0)
   then wait sched2 consumer_futures
   else ret tt) ;;;
  ret PNone.

Definition shutdown_executor : M (pool W pyval) pyval :=
  fun p => (Return PNone, shutdown p).

End ThreadPool.

(** ** Predicates on executors used in the statements *)

(** Future [f] carries the call [c], and is either not yet run or finished
    with what [c] gave in the world it ran in. *)
Definition slot {W R} (p : pool W R) (f : future) (c : call W R) : Prop :=
  exists st, work_items p.1 !! f = Some (WorkItem c st) /\
             (st = PENDING \/ exists w, st = FINISHED (c w).1).

(** Future [f] carries the call [c] and has finished. *)
Definition finished {W R} (p : pool W R) (f : future) (c : call W R) : Prop :=
  exists w, work_items p.1 !! f = Some (WorkItem c (FINISHED (c w).1)).

(** The calls submitted to the executor so far, in submission order. *)
Definition calls {W R} (p : pool W R) : list (call W R) :=
  map wi_call (work_items p.1).

Definition running {W R} (p : pool W R) : Prop := shutdown_flag p.1 = false.



(** ** Vocabulary of the statements about [__init__.py] *)

(** What loading a module through its finder gives: its [source], or the
    exception of the import or of the attribute access. *)
Definition load_outcome (loader : Loader) (module_name : string) : outcome Source :=
  match find_spec_load_module loader module_name with
  | Return module => source module
  | Raise e => Raise e
  end.

(** The loaded plugin [(name, source)] of a module that loads. *)
Definition loaded (m : Loader * string) : option (string * Source) :=
  match load_outcome m.1 m.2 with
  | Return src => Some (m.2, src)
  | Raise _ => None
  end.

Definition plugin (mi : ModuleInfo) : option (string * Source) :=
  loaded (module_finder mi, name mi).

(** The answer of the Enablement Oracle, as a boolean. *)
Definition is_enabled (env : Env) (module_name : string) : bool :=
  match (enabledCheck env module_name []).1 with
  | Return b => b
  | Raise _ => false
  end.

(** The plugin root. *)
Definition root (env : Env) : string := osPath_join (file_dirname env) sourceFolder.

(** The categories a call selects: the ones supplied, else the
    subdirectories of the root. *)
Definition categories (dirs : list string) (specified : option (list string)) : list string :=
  match specified with
  | Some (c :: cs) => c :: cs
  | _ => dirs
  end.

Definition py_folders (specified : option (list string)) : pyval :=
  match specified with
  | None => PNone
  | Some cs => PList (map PStr cs)
  end.

(** The leaf modules of the given categories, in walking order; [None]
    when walking one of them raises. *)
Fixpoint leaf_modules (env : Env) (folders : list string) : option (list ModuleInfo) :=
  match folders with
  | [] => Some []
  | d :: r =>
      match gen_list (walk_packages env [osPath_join (root env) d]), leaf_modules env r with
      | Some ms, Some rest => Some (List.filter (fun mi => negb (ispkg mi)) ms ++ rest)
      | _, _ => None
      end
  end.

(** The modules a call of [sources] keeps. *)
Definition kept (env : Env) (ret_all : bool) (ms : list ModuleInfo) : list (Loader * string) :=
  map (fun mi => (module_finder mi, name mi))
      (List.filter (fun mi => ret_all || is_enabled env (name mi)) ms).


(** ** A small plugin tree

    Root with categories [a] and [b]; [a] holds [a1] (enabled) and [a2]
    (disabled), [b] holds [b1] (enabled), whose import raises. *)

Definition demo_source (n : string) : Source := mkSource n (Return (PBool true)).

Definition demo_loader (n : string) : Loader :=
  mkLoader (fun _ => Return (mkModule (Return (demo_source n))))
           (fun _ => Return (mkModule (Return (demo_source n)))).

Definition demo_failure : exc := Exception "ImportError" "No module named requests".

Definition failing_loader : Loader :=
  mkLoader (fun _ => Raise demo_failure) (fun _ => Raise demo_failure).

Definition demo_a : list ModuleInfo :=
  [mkModuleInfo (demo_loader "a1") "a1" false; mkModuleInfo (demo_loader "a2") "a2" false].

Definition demo_b : list ModuleInfo := [mkModuleInfo failing_loader "b1" false].

Definition demo_root : string := "/addons/cocoscrapers/sources_cocoscrapers".

Definition demo_settings (key : string) : outcome pyval :=
  if String.eqb key "provider.a2" then Return (PStr "false")
  else if String.eqb key "provider.zz" then Raise (Exception "RuntimeError" "settings unavailable")
  else Return (PStr "true").

Lemma demo_settings_raises_Exception key e :
  demo_settings key = Raise e -> is_exception e = true.
Proof.
  unfold demo_settings.
  destruct (String.eqb key "provider.a2"); [discriminate|].
  destruct (String.eqb key "provider.zz"); [|discriminate].
  by intros [= <-].
Qed.

Definition demo_walk_packages (path : list string) : gen ModuleInfo :=
  match path with
  | [p] =>
      if String.eqb p (demo_root +:+ "/a") then gen_of_list demo_a
      else if String.eqb p (demo_root +:+ "/b") then gen_of_list demo_b
      else GStop
  | _ => GStop
  end.

Definition demo_env : Env :=
  mkEnv demo_settings (PStr "true") "/addons/cocoscrapers"
    (fun p => if String.eqb p demo_root then [(p, ["a"; "b"], [])] else [])
    demo_walk_packages demo_settings_raises_Exception.

(** The same tree with only category [a], where every module loads. *)
Definition demo_env_a : Env :=
  mkEnv demo_settings (PStr "true") "/addons/cocoscrapers"
    (fun p => if String.eqb p demo_root then [(p, ["a"], [])] else [])
    demo_walk_packages demo_settings_raises_Exception.


(** Category [e] holds [e0], which loads, and [e1], whose import calls
    [sys.exit(1)]; category [q] holds [q1], [q2], whose import raises
    [ImportError], and [q3]. *)
Definition demo_exit : exc := SystemExit "1".

Definition exit_loader : Loader :=
  mkLoader (fun _ => Raise demo_exit) (fun _ => Raise demo_exit).

Definition exit_env : Env :=
  mkEnv demo_settings (PStr "true") "/addons/cocoscrapers"
    (fun p => if String.eqb p demo_root then [(p, ["e"], [])] else [])
    (fun path => match path with
                 | [p] => if String.eqb p (demo_root +:+ "/e")
                          then gen_of_list [mkModuleInfo (demo_loader "e0") "e0" false;
                                            mkModuleInfo exit_loader "e1" false]
                          else if String.eqb p (demo_root +:+ "/q")
                          then gen_of_list [mkModuleInfo (demo_loader "q1") "q1" false;
                                            mkModuleInfo failing_loader "q2" false;
                                            mkModuleInfo (demo_loader "q3") "q3" false]
                          else GStop
                 | _ => GStop
                 end)
    demo_settings_raises_Exception.



(** The sentence "a load failure in the Capability Filter surfaces to the
    caller", read on [pack_sources]. *)
Definition load_failure_surfaces : Prop :=
  forall env category mi e lg,
    yields (walk_packages env [osPath_join (root env) category]) mi ->
    ispkg mi = false ->
    find_module_load_module (module_finder mi) (name mi) = Raise e ->
    exists e' lg', pack_sources env (PStr category) lg = (Raise e', lg').

(** ** Vocabulary of the statements about [Thread_pool.py] *)

(** The work items of the calls [cs], as [submit] adds them. *)
Definition submitted {W R} (p : pool W R) (cs : list (call W R)) : pool W R :=
  (set_items p.1 (work_items p.1 ++ map (fun c => WorkItem c PENDING) cs), p.2).

(** Every work item from index [n] on is pending or finished. *)
Definition fresh_from {W R} (n : nat) (p : pool W R) : Prop :=
  forall f c, n <= f -> calls p !! f = Some c -> slot p f c.

(** Every work item from index [n] on has finished. *)
Definition all_finished_from {W R} (n : nat) (p : pool W R) : Prop :=
  forall f c, n <= f -> calls p !! f = Some c -> finished p f c.

(** ** Callables used in the examples *)

(** A producer that returns a list for [1], a single value for [3], a
    falsy number for [0], and raises for everything else. *)
Definition demo_producer : pyval -> call unit pyval :=
  fun item w =>
    match item with
    | PInt 0 => (Return (PInt 0), w)
    | PInt 1 => (Return (PList [PInt 10; PInt 11]), w)
    | PInt 3 => (Return (PInt 20), w)
    | _ => (Raise (Exception "ValueError" "bad item"), w)
    end.

Definition demo_consumer : pyval -> call unit pyval :=
  fun value w => (Return PNone, w).

(** [lambda a, b: a + b] on integers. *)
Definition demo_add : list pyval -> call unit pyval :=
  fun args w =>
    match args with
    | [PInt a; PInt b] => (Return (PInt (a + b)), w)
    | _ => (Raise (TypeError "unsupported operands"), w)
    end.

Definition demo_sum (args : list pyval) : pyval :=
  match args with
  | [PInt a; PInt b] => PInt (a + b)
  | _ => PNone
  end.

(** What [run_pipelined] forwards to the consumer for one producer
    outcome: nothing for an exception or a falsy result, the elements of
    a list, the value itself otherwise. *)
Definition forward (o : outcome pyval) : list pyval :=
  match o with
  | Raise _ => []
  | Return v =>
      if truthy v
      then match v with PList l => l | _ => [v] end
      else []
  end.

(** ** Vocabulary of the further statements *)

(** What a [for] loop over the generator [g] meets: all its values, or the
    exception that ends it. *)
Fixpoint gen_outcome {A} (g : gen A) : outcome (list A) :=
  match g with
  | GStop => Return []
  | GYield x r =>
      match gen_outcome r with
      | Return l => Return (x :: l)
      | Raise e => Raise e
      end
  | GRaise e => Raise e
  end.

(** The entries [sources] meets when it walks the folders [folders] one
    after the other, or the first exception on the way: a folder name that
    is not a string, or a walk that raises. *)
Fixpoint walk (env : Env) (folders : list pyval) : outcome (list ModuleInfo) :=
  match folders with
  | [] => Return []
  | i :: r =>
      match osPath_join_py (root env) i with
      | Raise e => Raise e
      | Return p =>
          match gen_outcome (walk_packages env [p]) with
          | Raise e => Raise e
          | Return ms =>
              match walk env r with
              | Return rest => Return (ms ++ rest)
              | Raise e => Raise e
              end
          end
      end
  end.

Definition is_leaf (mi : ModuleInfo) : bool := negb (ispkg mi).

(** What [pack_sources] reads of a module: [module.source.pack_capable]
    after the load through [find_module]. *)
Definition pack_flag (mi : ModuleInfo) : outcome pyval :=
  match find_module_load_module (module_finder mi) (name mi) with
  | Return module =>
      match source module with
      | Return src => pack_capable src
      | Raise e => Raise e
      end
  | Raise e => Raise e
  end.

Definition is_pack_capable (mi : ModuleInfo) : bool :=
  match pack_flag mi with
  | Return flag => truthy flag
  | Raise _ => false
  end.

(** The names [pack_sources] collects from the entries of a walk, in
    walking order, or the first exception on the way: of the walk itself,
    of a load, or of reading [source] or [pack_capable]. *)
Fixpoint pack_names (g : gen ModuleInfo) : outcome (list string) :=
  match g with
  | GStop => Return []
  | GRaise e => Raise e
  | GYield mi r =>
      if ispkg mi then pack_names r
      else
        match pack_flag mi with
        | Raise e => Raise e
        | Return flag =>
            match pack_names r with
            | Return l => Return (if truthy flag then name mi :: l else l)
            | Raise e => Raise e
            end
        end
  end.

Definition pack_outcome (env : Env) (sourceSubFolder : pyval) : outcome (list string) :=
  match osPath_join_py (root env) sourceSubFolder with
  | Raise e => Raise e
  | Return p => pack_names (walk_packages env [p])
  end.

(** No call held by the executor changes the world. *)
Definition quiet {W R} (p : pool W R) : Prop :=
  forall f wi, work_items p.1 !! f = Some wi -> forall w, (wi_call wi w).2 = w.


(** ** Further plugin trees *)


(** Categories [a] and [x]; walking [x] yields one module and then raises. *)
Definition broken_walk_env : Env :=
  mkEnv demo_settings (PStr "false") "/addons/cocoscrapers"
    (fun p => if String.eqb p demo_root then [(p, ["a"; "x"], [])] else [])
    (fun path => match path with
                 | [p] => if String.eqb p (demo_root +:+ "/a") then gen_of_list demo_a
                          else if String.eqb p (demo_root +:+ "/x")
                          then GYield (mkModuleInfo (demo_loader "x1") "x1" false)
                                 (GRaise (Exception "SyntaxError" "invalid syntax"))
                          else GStop
                 | _ => GStop
                 end)
    demo_settings_raises_Exception.

(** The demo tree with diagnostics off. *)
Definition silent_env : Env :=
  mkEnv demo_settings (PStr "false") "/addons/cocoscrapers"
    (fun p => if String.eqb p demo_root then [(p, ["a"; "b"], [])] else [])
    demo_walk_packages demo_settings_raises_Exception.

(** Category [p]: a package, a pack-capable module, a module that is not,
    and a second pack-capable one. *)
Definition pack_loader (n : string) (flag : pyval) : Loader :=
  mkLoader (fun _ => Return (mkModule (Return (mkSource n (Return flag)))))
           (fun _ => Return (mkModule (Return (mkSource n (Return flag))))).

Lemma fixed_setting_raises_Exception (v : pyval) (key : string) (e : exc) :
  Return v = Raise e -> is_exception e = true.
Proof. discriminate. Qed.

Definition pack_env : Env :=
  mkEnv (fun _ => Return (PStr "false")) (PStr "false") "/addons/cocoscrapers"
    (fun _ => [])
    (fun path => match path with
                 | [p] => if String.eqb p (demo_root +:+ "/p")
                          then gen_of_list
                                 [mkModuleInfo failing_loader "pkg" true;
                                  mkModuleInfo (pack_loader "p1" (PBool true)) "p1" false;
                                  mkModuleInfo (pack_loader "p2" (PBool false)) "p2" false;
                                  mkModuleInfo (pack_loader "p3" (PInt 1)) "p3" false]
                          else GStop
                 | _ => GStop
                 end)
    (fixed_setting_raises_Exception (PStr "false")).


(** The folders [sources] walks: the first result of [os.walk] gives the
    subdirectories of the root (an [IndexError] when there is none), which
    a truthy [specified_folders] replaces. *)
Definition selected_folders (env : Env) (specified_folders : pyval) : outcome (list pyval) :=
  match index0 (map (fun x => PList (map PStr x.1.2)) (osWalk env (root env))) with
  | Raise e => Raise e
  | Return sub => py_iter (if truthy specified_folders then specified_folders else sub)
  end.

(** The leaf modules [sources] enumerates, or the exception that ends the
    enumeration. *)
Definition enumeration (env : Env) (specified_folders : pyval) : outcome (list ModuleInfo) :=
  match selected_folders env specified_folders with
  | Raise e => Raise e
  | Return folders =>
      match walk env folders with
      | Return ms => Return (List.filter is_leaf ms)
      | Raise e => Raise e
      end
  end.

(** Whether the load of a leaf module returns, or fails with an exception
    of class [Exception]. *)
Definition load_catchable (mi : ModuleInfo) : bool :=
  catchable (load_outcome (module_finder mi) (name mi)).


(** A producer that exits the interpreter on [2]. *)
Definition exiting_producer : pyval -> call unit pyval :=
  fun item w =>
    match item with
    | PInt 2 => (Raise (SystemExit "2"), w)
    | _ => (Return item, w)
    end.

(** * Facts about the monad and the executor *)

Lemma completion_order_perm {A} (sched : list nat) (l : list A) :
  completion_order sched l ≡ₚ l.
Proof.
  revert l. induction sched as [|n sched IH]; intros l; simpl; [done|].
  destruct (l !! (n `mod` length l)) as [x|] eqn:E; [|done].
  rewrite IH. symmetry. by apply delete_Permutation.
Qed.


(** Every order of completion is the choice of some schedule. *)
Lemma completion_order_complete {A} (l l' : list A) :
  l ≡ₚ l' -> exists sched, completion_order sched l = l'.
Proof.
  revert l. induction l' as [|x r IH]; intros l Hp.
  - apply Permutation_nil_r in Hp as ->. by exists [].
  - assert (x ∈ l) as Hx by (rewrite Hp; left).
    apply list_elem_of_lookup in Hx as [i Hi].
    pose proof (lookup_lt_Some _ _ _ Hi) as Hlt.
    destruct (IH (delete i l)) as [sched Hs].
    + apply (Permutation_cons_inv (a := x)).
      rewrite <- Hp. symmetry. by apply delete_Permutation.
    + exists (i :: sched). cbn [completion_order].
      rewrite Nat.mod_small by done. by rewrite Hi, Hs.
Qed.

Section ExecutorFacts.
Context {W R : Type}.
Implicit Types (p : pool W R) (c : call W R) (f g : future).

Lemma complete_flag g p : shutdown_flag (complete g p).1 = shutdown_flag p.1.
Proof.
  unfold complete. destruct (work_items p.1 !! g) as [[c [| |]]|]; try done.
  by destruct (c p.2).
Qed.

Lemma complete_calls g p : calls (complete g p) = calls p.
Proof.
  unfold complete, calls.
  destruct (work_items p.1 !! g) as [[c [| |]]|] eqn:E; try done.
  destruct (c p.2) as [o w']; simpl.
  apply list_eq; intros i. rewrite !list_lookup_fmap.
  destruct (decide (i = g)) as [->|Hne].
  - rewrite list_lookup_insert_eq by (by eapply lookup_lt_Some). by rewrite E.
  - by rewrite list_lookup_insert_ne.
Qed.

Lemma complete_length g p : length (work_items (complete g p).1) = length (work_items p.1).
Proof.
  unfold complete. destruct (work_items p.1 !! g) as [[c [| |]]|]; try done.
  destruct (c p.2); simpl. by rewrite length_insert.
Qed.

Lemma slot_complete g p f c : slot p f c -> slot (complete g p) f c.
Proof.
  intros (st & Hl & Hst). unfold complete.
  destruct (work_items p.1 !! g) as [[c' [| |]]|] eqn:E; try (by exists st).
  destruct (c' p.2) as [o w'] eqn:Ec. unfold slot; simpl.
  destruct (decide (g = f)) as [->|Hne].
  - rewrite E in Hl. injection Hl as -> <-.
    exists (FINISHED o). split.
    + rewrite list_lookup_insert_eq; [done|by eapply lookup_lt_Some].
    + right. exists p.2. by rewrite Ec.
  - exists st. by rewrite list_lookup_insert_ne.
Qed.

Lemma finished_complete g p f c : finished p f c -> finished (complete g p) f c.
Proof.
  intros (w & Hl). unfold complete.
  destruct (work_items p.1 !! g) as [[c' [| |]]|] eqn:E; try (by exists w).
  destruct (c' p.2) as [o w'] eqn:Ec. unfold finished; simpl.
  destruct (decide (g = f)) as [->|Hne].
  - congruence.
  - exists w. by rewrite list_lookup_insert_ne.
Qed.

Lemma slot_complete_finished p f c : slot p f c -> finished (complete f p) f c.
Proof.
  intros (st & Hl & Hst). unfold complete, finished. rewrite Hl.
  destruct Hst as [->|[w ->]].
  - destruct (c p.2) as [o w'] eqn:Ec; simpl. exists p.2.
    rewrite list_lookup_insert_eq by (by eapply lookup_lt_Some). by rewrite Ec.
  - by exists w.
Qed.

Lemma finished_slot p f c : finished p f c -> slot p f c.
Proof. intros (w & Hl). exists (FINISHED (c w).1). split; [done|]. right. by exists w. Qed.


Lemma settle_calls fs p : calls (settle fs p) = calls p.
Proof.
  revert p. induction fs as [|g fs IH]; intros p; simpl; [done|].
  unfold settle in *; simpl. by rewrite IH, complete_calls.
Qed.

Lemma slot_settle fs p f c : slot p f c -> slot (settle fs p) f c.
Proof.
  revert p. induction fs as [|g fs IH]; intros p H; simpl; [done|].
  apply IH. by apply slot_complete.
Qed.

Lemma finished_settle fs p f c : finished p f c -> finished (settle fs p) f c.
Proof.
  revert p. induction fs as [|g fs IH]; intros p H; simpl; [done|].
  apply IH. by apply finished_complete.
Qed.

Lemma settle_finishes fs p f c : f ∈ fs -> slot p f c -> finished (settle fs p) f c.
Proof.
  revert p. induction fs as [|g fs IH]; intros p Hin H; [by apply elem_of_nil in Hin|].
  apply elem_of_cons in Hin as [->|Hin]; simpl.
  - apply finished_settle. by apply slot_complete_finished.
  - apply IH; [done|]. by apply slot_complete.
Qed.

(** [result] on a tracked future: the value of its call in some world. *)
Lemma result_slot p f c :
  slot p f c -> exists w, result f p = ((c w).1, complete f p).
Proof.
  intros H. destruct (slot_complete_finished _ _ _ H) as (w & Hl).
  exists w. unfold result. by rewrite Hl.
Qed.

Lemma submit_running c p :
  running p ->
  submit c p = (Return (length (work_items p.1)),
                (set_items p.1 (work_items p.1 ++ [WorkItem c PENDING]), p.2)).
Proof. unfold running, submit. by intros ->. Qed.

Lemma slot_submit c' p f c :
  slot p f c ->
  slot (set_items p.1 (work_items p.1 ++ [WorkItem c' PENDING]), p.2) f c.
Proof.
  intros (st & Hl & Hst). exists st. split; [|done]. simpl.
  by apply lookup_app_l_Some.
Qed.

Lemma finished_submit c' p f c :
  finished p f c ->
  finished (set_items p.1 (work_items p.1 ++ [WorkItem c' PENDING]), p.2) f c.
Proof. intros (w & Hl). exists w. simpl. by apply lookup_app_l_Some. Qed.

Lemma slot_new c p :
  slot (set_items p.1 (work_items p.1 ++ [WorkItem c PENDING]), p.2)
       (length (work_items p.1)) c.
Proof.
  exists PENDING. split; [|by left]. simpl.
  rewrite lookup_app_r by lia. by rewrite Nat.sub_diag.
Qed.

End ExecutorFacts.

(** * Facts about [__init__.py] *)

Lemma omap_cons {A B} (g : A -> option B) (x : A) (l : list A) :
  omap g (x :: l) = match g x with Some y => y :: omap g l | None => omap g l end.
Proof. reflexivity. Qed.

Lemma omap_lookup_seq {A B} (g : A -> option B) (l pre : list A) :
  omap (fun f => (pre ++ l) !! f ≫= g) (seq (length pre) (length l)) = omap g l.
Proof.
  revert pre. induction l as [|x l IH]; intros pre; [done|].
  cbn [length seq]. rewrite !omap_cons.
  rewrite lookup_app_r by lia. rewrite Nat.sub_diag. cbn [lookup list_lookup mbind option_bind].
  specialize (IH (pre ++ [x])). rewrite length_app in IH; cbn [length] in IH.
  rewrite <- app_assoc in IH; cbn [app] in IH.
  replace (length pre + 1) with (S (length pre)) in IH by lia.
  by rewrite IH.
Qed.

Lemma submit_all_running {W R} (cs : list (call W R)) (p : pool W R) :
  running p ->
  submit_all cs p =
    (Return (seq (length (work_items p.1)) (length cs)),
     (set_items p.1 (work_items p.1 ++ map (fun c => WorkItem c PENDING) cs), p.2)).
Proof.
  revert p. induction cs as [|c cs IH]; intros [ex w] Hr; simpl.
  - unfold ret. rewrite app_nil_r. by destruct ex.
  - unfold bind. rewrite submit_running by done. simpl.
    rewrite IH by done. simpl. unfold ret, set_items; simpl.
    rewrite length_app; simpl. rewrite <- app_assoc; simpl.
    by replace (length (work_items ex) + 1) with (S (length (work_items ex))) by lia.
Qed.

Lemma _load_module_value env loader module_name lg :
  catchable (load_outcome loader module_name) = true ->
  exists lg', _load_module env loader module_name lg
              = (Return (loaded (loader, module_name)), lg').
Proof.
  unfold _load_module, loaded, load_outcome, try_except, bind, of_outcome; simpl.
  destruct (find_spec_load_module loader module_name) as [m|e]; simpl.
  - destruct (source m) as [src|e]; simpl; [by eexists|].
    intros ->. destruct (debug env); by eexists.
  - intros ->. destruct (debug env); by eexists.
Qed.

(** An exception outside class [Exception] passes the handler of
    [_load_module], and nothing is logged. *)
Lemma _load_module_exits env loader module_name e lg :
  load_outcome loader module_name = Raise e -> is_exception e = false ->
  _load_module env loader module_name lg = (Raise e, lg).
Proof.
  unfold _load_module, load_outcome, try_except, bind, of_outcome.
  destruct (find_spec_load_module loader module_name) as [m|e'].
  - by intros -> ->.
  - by intros [= ->] ->.
Qed.

Lemma not_catchable {A} (o : outcome A) :
  catchable o = false -> exists e, o = Raise e /\ is_exception e = false.
Proof. destruct o as [a|e]; [done|]. intros H. by exists e. Qed.

Lemma enabledCheck_value env module_name lg :
  exists lg', enabledCheck env module_name lg = (Return (is_enabled env module_name), lg').
Proof.
  unfold is_enabled, enabledCheck, try_except, bind, of_outcome; simpl.
  destruct (getSetting env _) as [v|e] eqn:E; simpl.
  - destruct (py_eq_str v "true"); by eexists.
  - rewrite (getSetting_raises_Exception env _ e E). by eexists.
Qed.

Lemma kept_app env ret_all ms1 ms2 :
  kept env ret_all (ms1 ++ ms2) = kept env ret_all ms1 ++ kept env ret_all ms2.
Proof. unfold kept. by rewrite List.filter_app, map_app. Qed.

Lemma keep_module_value env ret_all mi acc lg :
  exists lg',
    keep_module env ret_all mi acc lg
    = (Return (acc ++ kept env ret_all (List.filter (fun mi => negb (ispkg mi)) [mi])), lg').
Proof.
  unfold keep_module, kept. cbn [List.filter].
  destruct (ispkg mi); cbn [negb List.filter map].
  - exists lg. by rewrite app_nil_r.
  - destruct ret_all; cbn [orb].
    + by exists lg.
    + unfold bind. destruct (enabledCheck_value env (name mi) lg) as [lg1 ->].
      exists lg1. destruct (is_enabled env (name mi)); cbn [map]; [done|].
      by rewrite app_nil_r.
Qed.

Lemma collect_inner env ret_all (g : gen ModuleInfo) ms acc lg :
  gen_list g = Some ms ->
  exists lg',
    for_gen g (keep_module env ret_all) acc lg
    = (Return (acc ++ kept env ret_all (List.filter (fun mi => negb (ispkg mi)) ms)), lg').
Proof.
  revert ms acc lg. induction g as [|mi g IH|e]; intros ms acc lg H; cbn [for_gen gen_list] in *.
  - injection H as <-. exists lg. unfold kept; cbn. by rewrite app_nil_r.
  - destruct (gen_list g) as [ms'|]; [|done]. injection H as <-.
    unfold bind at 1.
    destruct (keep_module_value env ret_all mi acc lg) as [lg1 ->].
    destruct (IH ms' (acc ++ kept env ret_all
                 (List.filter (fun mi => negb (ispkg mi)) [mi])) lg1 eq_refl) as [lg2 ->].
    exists lg2. rewrite <- app_assoc, <- kept_app, <- List.filter_app. done.
  - done.
Qed.

Lemma collect_loop env ret_all dirs leaves acc lg :
  leaf_modules env dirs = Some leaves ->
  exists lg',
    for_list (map PStr dirs)
      (fun i modules_to_load =>
         p <- of_outcome (osPath_join_py (root env) i) ;;
         for_gen (walk_packages env [p]) (keep_module env ret_all) modules_to_load)
      acc lg
    = (Return (acc ++ kept env ret_all leaves), lg').
Proof.
  revert leaves lg acc. induction dirs as [|d dirs IH]; intros leaves lg acc H; simpl in *.
  - injection H as <-. unfold kept; simpl. rewrite app_nil_r. by eexists.
  - destruct (gen_list (walk_packages env [osPath_join (root env) d])) as [ms|] eqn:Eg; [|done].
    destruct (leaf_modules env dirs) as [rest|] eqn:El; [|done]. injection H as <-.
    unfold bind at 1. unfold bind at 1. unfold of_outcome at 1. simpl.
    destruct (collect_inner env ret_all _ ms acc lg Eg) as [lg1 ->].
    destruct (IH rest lg1 (acc ++ kept env ret_all
                 (List.filter (fun mi => negb (ispkg mi)) ms)) eq_refl) as [lg2 ->].
    exists lg2. by rewrite kept_app, app_assoc.
Qed.

Lemma collect_modules_value env ret_all dirs leaves lg :
  leaf_modules env dirs = Some leaves ->
  exists lg',
    collect_modules env (root env) (map PStr dirs) ret_all lg
    = (Return (kept env ret_all leaves), lg').
Proof. intros H. apply (collect_loop env ret_all dirs leaves [] lg H). Qed.

Lemma append_result_value env (m : Loader * string) f acc
    (p : pool log (option (string * Source))) :
  catchable (load_outcome m.1 m.2) = true ->
  slot p f (_load_module env m.1 m.2) ->
  (await f ;;; append_result f acc) p
  = (Return (acc ++ option_list (loaded m)), complete f (complete f p)).
Proof.
  intros Hc Hs. pose proof (slot_complete f _ _ _ Hs) as Hs1.
  destruct (result_slot _ _ _ Hs1) as [w Hr].
  destruct (_load_module_value env m.1 m.2 w Hc) as [lg' Hv].
  rewrite Hv in Hr; cbn [fst] in Hr.
  replace (m.1, m.2) with m in * by (by destruct m).
  unfold bind, await, append_result, bind. rewrite Hr.
  destruct (loaded m); unfold ret; cbn [option_list]; [done|].
  by rewrite app_nil_r.
Qed.

(** The exception of a load that was not caught in the worker is raised
    again by [future.result()]. *)
Lemma append_result_exits env (m : Loader * string) e f acc
    (p : pool log (option (string * Source))) :
  load_outcome m.1 m.2 = Raise e -> is_exception e = false ->
  slot p f (_load_module env m.1 m.2) ->
  (await f ;;; append_result f acc) p = (Raise e, complete f (complete f p)).
Proof.
  intros He Hx Hs. pose proof (slot_complete f _ _ _ Hs) as Hs1.
  destruct (result_slot _ _ _ Hs1) as [w Hr].
  rewrite (_load_module_exits env m.1 m.2 e w He Hx) in Hr; cbn [fst] in Hr.
  unfold bind, await, append_result, bind. by rewrite Hr.
Qed.

Lemma load_loop env (mods : list (Loader * string)) order acc
    (p : pool log (option (string * Source))) :
  (forall f, f ∈ order -> f < length mods) ->
  (forall f m, mods !! f = Some m -> slot p f (_load_module env m.1 m.2)) ->
  (forall m, m ∈ mods -> catchable (load_outcome m.1 m.2) = true) ->
  exists p',
    for_list order (fun f acc => await f ;;; append_result f acc) acc p
    = (Return (acc ++ omap (fun f => mods !! f ≫= loaded) order), p').
Proof.
  intros Hlt Hs Hc. revert acc p Hlt Hs.
  induction order as [|f order IH]; intros acc p Hlt Hs; cbn [for_list].
  - exists p. by rewrite app_nil_r.
  - assert (f < length mods) as Hf by (apply Hlt; left).
    destruct (lookup_lt_is_Some_2 _ _ Hf) as [m Hm].
    unfold bind at 1. rewrite (append_result_value env m).
    2: { apply Hc. by eapply list_elem_of_lookup_2. }
    2: { by apply Hs. }
    destruct (IH (acc ++ option_list (loaded m)) (complete f (complete f p))) as [p' Hp'].
    + intros g Hg. apply Hlt. by right.
    + intros g m' Hg. do 2 apply slot_complete. by apply Hs.
    + exists p'. rewrite Hp', omap_cons, Hm. cbn [mbind option_bind].
      destruct (loaded m); cbn [option_list]; by rewrite <- app_assoc.
Qed.

(** When one of the loads waited for is not caught, the loop over
    [as_completed] ends with the first such exception it meets. *)
Lemma load_loop_exits env (mods : list (Loader * string)) order acc
    (p : pool log (option (string * Source))) :
  (forall f, f ∈ order -> f < length mods) ->
  (forall f m, mods !! f = Some m -> slot p f (_load_module env m.1 m.2)) ->
  (exists f m, f ∈ order /\ mods !! f = Some m /\ catchable (load_outcome m.1 m.2) = false) ->
  exists m e p',
    m ∈ mods /\ load_outcome m.1 m.2 = Raise e /\ is_exception e = false /\
    for_list order (fun f acc => await f ;;; append_result f acc) acc p = (Raise e, p').
Proof.
  revert acc p. induction order as [|f order IH]; intros acc p Hlt Hs (f0 & m0 & Hin & Hm0 & Hx).
  - by apply elem_of_nil in Hin.
  - cbn [for_list].
    assert (f < length mods) as Hf by (apply Hlt; left).
    destruct (lookup_lt_is_Some_2 _ _ Hf) as [m Hm].
    destruct (catchable (load_outcome m.1 m.2)) eqn:Hc.
    + unfold bind at 1. rewrite (append_result_value env m) by (done || by apply Hs).
      apply IH.
      * intros g Hg. apply Hlt. by right.
      * intros g m' Hg. do 2 apply slot_complete. by apply Hs.
      * exists f0, m0. split; [|done].
        apply elem_of_cons in Hin as [->|Hin]; [|done]. congruence.
    + apply not_catchable in Hc as (e & He & Hxe).
      exists m, e, (complete f (complete f p)).
      split; [by eapply list_elem_of_lookup_2|]. split; [done|]. split; [done|].
      unfold bind at 1. by rewrite (append_result_exits env m e) by (done || by apply Hs).
Qed.

Lemma load_in_parallel_value env sched mods lg :
  (forall m, m ∈ mods -> catchable (load_outcome m.1 m.2) = true) ->
  exists l lg',
    load_in_parallel env sched mods [] lg = (Return l, lg') /\
    l ≡ₚ omap loaded mods.
Proof.
  intros Hc. unfold load_in_parallel, with_executor, for_as_completed.
  unfold bind at 1. rewrite submit_all_running by done.
  cbn [fst snd new_executor work_items app length]. rewrite length_map.
  set (p0 := (set_items _ _, lg)).
  destruct (load_loop env mods (completion_order sched (seq 0 (length mods))) [] p0)
    as [p' Hp'].
  - intros f Hf. rewrite completion_order_perm in Hf.
    apply elem_of_seq in Hf. lia.
  - intros f m Hm. exists PENDING. split; [|by left]. subst p0. cbn.
    rewrite list_lookup_fmap, list_lookup_fmap, Hm. done.
  - done.
  - rewrite Hp'. eexists _, _. split; [done|]. cbn [app].
    rewrite completion_order_perm.
    by rewrite <- (omap_lookup_seq loaded mods []).
Qed.

(** A load that is not caught ends the [with] block of [sources] with its
    exception, for every completion order. *)
Lemma load_in_parallel_exits env sched mods lg :
  (exists m, m ∈ mods /\ catchable (load_outcome m.1 m.2) = false) ->
  exists m e lg',
    m ∈ mods /\ load_outcome m.1 m.2 = Raise e /\ is_exception e = false /\
    load_in_parallel env sched mods [] lg = (Raise e, lg').
Proof.
  intros (m0 & Hin & Hx). unfold load_in_parallel, with_executor, for_as_completed.
  unfold bind at 1. rewrite submit_all_running by done.
  cbn [fst snd new_executor work_items app length]. rewrite length_map.
  set (p0 := (set_items _ _, lg)).
  destruct (load_loop_exits env mods (completion_order sched (seq 0 (length mods))) [] p0)
    as (m & e & p' & Hm & He & Hxe & Hp').
  - intros f Hf. rewrite completion_order_perm in Hf.
    apply elem_of_seq in Hf. lia.
  - intros f m Hm. exists PENDING. split; [|by left]. subst p0. cbn.
    rewrite list_lookup_fmap, list_lookup_fmap, Hm. done.
  - apply list_elem_of_lookup in Hin as [f Hf]. exists f, m0.
    split; [|done]. rewrite completion_order_perm. apply elem_of_seq.
    apply lookup_lt_Some in Hf. lia.
  - rewrite Hp'. by exists m, e, (shutdown p').2.
Qed.

Lemma omap_map {A B C} (g : A -> B) (h : B -> option C) (l : list A) :
  omap h (map g l) = omap (fun x => h (g x)) l.
Proof. induction l as [|x l IH]; [done|]. cbn [map]. by rewrite !omap_cons, IH. Qed.

Lemma elem_of_bool_filter {A} (P : A -> bool) (l : list A) x :
  x ∈ List.filter P l <-> x ∈ l /\ P x = true.
Proof. rewrite !list_elem_of_In. apply filter_In. Qed.

Lemma kept_catchable env ret_all (leaves : list ModuleInfo) :
  (forall mi, mi ∈ leaves -> catchable (load_outcome (module_finder mi) (name mi)) = true) ->
  forall m, m ∈ kept env ret_all leaves -> catchable (load_outcome m.1 m.2) = true.
Proof.
  intros H m Hm. unfold kept in Hm.
  apply (list_elem_of_fmap (B:=Loader * string)) in Hm as (mi & -> & Hmi).
  apply elem_of_bool_filter in Hmi as [Hmi _]. by apply H.
Qed.

Lemma sources_value env sched specified ret_all d dirs files rest leaves lg :
  osWalk env (root env) = (d, dirs, files) :: rest ->
  leaf_modules env (categories dirs specified) = Some leaves ->
  (forall mi, mi ∈ leaves -> catchable (load_outcome (module_finder mi) (name mi)) = true) ->
  exists l lg',
    sources env sched (py_folders specified) ret_all lg = (Return l, lg') /\
    l ≡ₚ omap plugin (List.filter (fun mi => ret_all || is_enabled env (name mi)) leaves).
Proof.
  intros Hw Hl Hc. unfold sources, try_except, sources_try.
  fold (root env). rewrite Hw. cbn [map index0 fst snd].
  unfold bind at 1. unfold of_outcome at 1.
  assert (py_iter (if truthy (py_folders specified) then py_folders specified
                   else PList (map PStr dirs))
          = Return (map PStr (categories dirs specified))) as ->.
  { destruct specified as [[|c cs]|]; done. }
  unfold bind at 1. unfold of_outcome at 1. unfold bind at 1.
  destruct (collect_modules_value env ret_all _ leaves lg Hl) as [lg1 ->].
  destruct (load_in_parallel_value env sched (kept env ret_all leaves) lg1)
    as (l & lg2 & -> & Hp); [by apply kept_catchable|].
  exists l, lg2. split; [done|].
  rewrite Hp. unfold kept. by rewrite omap_map.
Qed.

Lemma is_enabled_spec env n :
  is_enabled env n = true <-> forall lg, (enabledCheck env n lg).1 = Return true.
Proof.
  split.
  - intros H lg. destruct (enabledCheck_value env n lg) as [lg' ->]. by rewrite H.
  - intros H. specialize (H []).
    destruct (enabledCheck_value env n []) as [lg' E]. rewrite E in H.
    by injection H.
Qed.

Lemma plugin_name mi x : plugin mi = Some x -> x.1 = name mi.
Proof.
  unfold plugin, loaded. cbn [fst snd].
  destruct (load_outcome _ _); [|done]. by intros [= <-].
Qed.

Lemma plugin_load mi x :
  plugin mi = Some x <->
  x.1 = name mi /\ load_outcome (module_finder mi) (name mi) = Return x.2.
Proof.
  unfold plugin, loaded. cbn [fst snd]. destruct x as [n src]. cbn [fst snd].
  destruct (load_outcome _ _) as [src'|e]; split.
  - by intros [= <- <-].
  - by intros [-> [= ->]].
  - done.
  - by intros [_ ?].
Qed.

Lemma names_of_plugins (ms : list ModuleInfo) :
  (forall mi, mi ∈ ms -> is_Some (plugin mi)) ->
  map fst (omap plugin ms) = map name ms.
Proof.
  induction ms as [|mi ms IH]; intros H; [done|].
  rewrite omap_cons. destruct (H mi) as [x Hx]; [left|]. rewrite Hx. cbn [map].
  rewrite (plugin_name _ _ Hx), IH; [done|]. intros mi' ?. apply H. by right.
Qed.

Lemma loads_catchable mi : is_Some (plugin mi) ->
  catchable (load_outcome (module_finder mi) (name mi)) = true.
Proof.
  intros [x Hx]. apply plugin_load in Hx as [_ ->]. done.
Qed.


(** What the enumeration loops of [sources] give, for every input. *)
Lemma keep_module_outcome env ret_all mi acc lg :
  exists lg',
    keep_module env ret_all mi acc lg
    = (Return (acc ++ kept env ret_all (List.filter is_leaf [mi])), lg').
Proof. apply keep_module_value. Qed.

Lemma collect_inner_outcome env ret_all (g : gen ModuleInfo) acc lg :
  exists lg',
    for_gen g (keep_module env ret_all) acc lg
    = (match gen_outcome g with
       | Return ms => Return (acc ++ kept env ret_all (List.filter is_leaf ms))
       | Raise e => Raise e
       end, lg').
Proof.
  revert acc lg. induction g as [|mi g IH|e]; intros acc lg; cbn [for_gen gen_outcome].
  - exists lg. unfold kept; cbn. by rewrite app_nil_r.
  - unfold bind at 1.
    destruct (keep_module_outcome env ret_all mi acc lg) as [lg1 ->].
    destruct (IH (acc ++ kept env ret_all (List.filter is_leaf [mi])) lg1) as [lg2 ->].
    exists lg2. destruct (gen_outcome g) as [ms|e]; [|done].
    by rewrite <- app_assoc, <- kept_app, <- List.filter_app.
  - by exists lg.
Qed.

Lemma collect_modules_outcome env ret_all folders lg :
  exists lg',
    collect_modules env (root env) folders ret_all lg
    = (match walk env folders with
       | Return ms => Return (kept env ret_all (List.filter is_leaf ms))
       | Raise e => Raise e
       end, lg').
Proof.
  unfold collect_modules.
  enough (forall acc, exists lg',
    for_list folders
      (fun i modules_to_load =>
         p <- of_outcome (osPath_join_py (root env) i) ;;
         for_gen (walk_packages env [p]) (keep_module env ret_all) modules_to_load)
      acc lg
    = (match walk env folders with
       | Return ms => Return (acc ++ kept env ret_all (List.filter is_leaf ms))
       | Raise e => Raise e
       end, lg')) as H by apply (H []).
  revert lg. induction folders as [|i folders IH]; intros lg acc; cbn [for_list walk].
  - exists lg. unfold kept; cbn. by rewrite app_nil_r.
  - unfold bind at 1. unfold bind at 1. unfold of_outcome at 1.
    destruct (osPath_join_py (root env) i) as [p|e]; [|by exists lg].
    destruct (collect_inner_outcome env ret_all (walk_packages env [p]) acc lg) as [lg1 ->].
    destruct (gen_outcome (walk_packages env [p])) as [ms|e]; [|by exists lg1].
    destruct (IH lg1 (acc ++ kept env ret_all (List.filter is_leaf ms))) as [lg2 ->].
    exists lg2. destruct (walk env folders) as [rest|e]; [|done].
    by rewrite List.filter_app, kept_app, app_assoc.
Qed.

Lemma bind_Return {S A B} (a : A) (k : A -> M S B) s :
  bind (of_outcome (Return a)) k s = k a s.
Proof. reflexivity. Qed.

Lemma bind_Raise {S A B} (e : exc) (k : A -> M S B) s :
  bind (of_outcome (Raise e)) k s = (Raise e, s).
Proof. reflexivity. Qed.

Lemma bind_run {S A B} (m : M S A) (k : A -> M S B) s r s' :
  m s = (r, s') ->
  bind m k s = match r with Return a => k a s' | Raise e => (Raise e, s') end.
Proof. intros H. unfold bind. by rewrite H. Qed.

Lemma forallb_elem_of {A} (P : A -> bool) (l : list A) :
  forallb P l = true <-> forall x, x ∈ l -> P x = true.
Proof.
  rewrite forallb_forall. split; intros H x Hx; apply H; by apply list_elem_of_In.
Qed.

Lemma forallb_false_elem_of {A} (P : A -> bool) (l : list A) :
  forallb P l = false -> exists x, x ∈ l /\ P x = false.
Proof.
  induction l as [|x l IH]; [done|]. cbn [forallb].
  destruct (P x) eqn:E.
  - intros H. destruct (IH H) as (y & Hy & HP). exists y. split; [by right|done].
  - intros _. exists x. split; [left|done].
Qed.

(** What the [try] block of [sources] gives, for every input: it raises
    the exception of the enumeration; else it returns the plugins of the
    kept leaf modules that load, in some order, unless the load of a kept
    module is not caught, which ends the block with that exception. *)
Lemma sources_try_outcome env sched specified_folders ret_all lg :
  exists lg',
    match enumeration env specified_folders with
    | Raise e => sources_try env sched specified_folders ret_all lg = (Raise e, lg')
    | Return leaves =>
        let ks := List.filter (fun mi => ret_all || is_enabled env (name mi)) leaves in
        if forallb load_catchable ks
        then exists l, sources_try env sched specified_folders ret_all lg = (Return l, lg') /\
                       l ≡ₚ omap plugin ks
        else exists mi e, mi ∈ ks /\
                          load_outcome (module_finder mi) (name mi) = Raise e /\
                          is_exception e = false /\
                          sources_try env sched specified_folders ret_all lg = (Raise e, lg')
    end.
Proof.
  unfold sources_try, enumeration, selected_folders.
  fold (root env).
  destruct (index0 _) as [sub|e]; [rewrite bind_Return|rewrite bind_Raise; by exists lg].
  destruct (py_iter _) as [folders|e]; [rewrite bind_Return|rewrite bind_Raise; by exists lg].
  destruct (collect_modules_outcome env ret_all folders lg) as [lg1 Hcm].
  rewrite (bind_run _ _ _ _ _ Hcm).
  destruct (walk env folders) as [ms|e]; [|by exists lg1].
  cbn zeta.
  set (ks := List.filter (fun mi => ret_all || is_enabled env (name mi)) (List.filter is_leaf ms)).
  assert (kept env ret_all (List.filter is_leaf ms)
          = map (fun mi => (module_finder mi, name mi)) ks) as Hk by done.
  destruct (forallb load_catchable ks) eqn:Hc.
  - destruct (load_in_parallel_value env sched (kept env ret_all (List.filter is_leaf ms)) lg1)
      as (l & lg2 & -> & Hp).
    { intros m Hm. rewrite Hk in Hm.
      apply (list_elem_of_fmap (B:=Loader * string)) in Hm as (mi & -> & Hmi).
      by apply (proj1 (forallb_elem_of _ _) Hc). }
    exists lg2, l. split; [done|]. rewrite Hp, Hk. by rewrite omap_map.
  - apply forallb_false_elem_of in Hc as (mi & Hmi & Hx).
    destruct (load_in_parallel_exits env sched (kept env ret_all (List.filter is_leaf ms)) lg1)
      as (m & e & lg2 & Hm & He & Hxe & ->).
    { exists (module_finder mi, name mi). split; [|done]. rewrite Hk.
      by apply (list_elem_of_fmap_2 (B:=Loader * string)
                  (fun mi => (module_finder mi, name mi))). }
    rewrite Hk in Hm.
    apply (list_elem_of_fmap (B:=Loader * string)) in Hm as (mi' & -> & Hmi').
    by exists lg2, mi', e.
Qed.


(** * The claims *)



(** C1.  On a plugin tree whose walk succeeds and where the Plugin Loader
    succeeds for every leaf module, [sources] with [ret_all=False]
    returns, up to order, exactly the plugins of the leaf modules for which
    [enabledCheck] returns [True]; with [ret_all=True] it returns, up to
    order, the plugins of all leaf modules, whatever the Oracle says. *)
Theorem sources_returns_enabled_set
    (env : Env) (sched : list nat) (specified : option (list string))
    d dirs files rest (leaves : list ModuleInfo) (lg : log) :
  osWalk env (root env) = (d, dirs, files) :: rest ->
  leaf_modules env (categories dirs specified) = Some leaves ->
  (forall mi, mi ∈ leaves -> is_Some (plugin mi)) ->
  exists l_enabled lg1 l_all lg2,
    sources env sched (py_folders specified) false lg = (Return l_enabled, lg1) /\
    l_enabled ≡ₚ omap plugin (List.filter (fun mi => is_enabled env (name mi)) leaves) /\
    (forall n, n ∈ map fst l_enabled <->
               exists mi, mi ∈ leaves /\ name mi = n /\
                          forall lg0, (enabledCheck env n lg0).1 = Return true) /\
    sources env sched (py_folders specified) true lg = (Return l_all, lg2) /\
    l_all ≡ₚ omap plugin leaves /\
    map fst l_all ≡ₚ map name leaves.
Proof.
  intros Hw Hl Hok.
  assert (forall mi, mi ∈ leaves ->
            catchable (load_outcome (module_finder mi) (name mi)) = true) as Hc.
  { intros mi Hmi. by apply loads_catchable, Hok. }
  destruct (sources_value env sched specified false _ _ _ _ _ lg Hw Hl Hc)
    as (l1 & lg1 & E1 & P1).
  destruct (sources_value env sched specified true _ _ _ _ _ lg Hw Hl Hc)
    as (l2 & lg2 & E2 & P2).
  cbn [orb] in P1, P2.
  assert (List.filter (fun _ : ModuleInfo => true) leaves = leaves) as Hall.
  { clear. induction leaves as [|x l IH]; [done|]. cbn. by rewrite IH. }
  rewrite Hall in P2.
  exists l1, lg1, l2, lg2. repeat split; try done.
  - intros Hn. rewrite (Permutation_map fst P1) in Hn.
    rewrite names_of_plugins in Hn.
    + apply (list_elem_of_fmap (B:=string)) in Hn as (mi & -> & Hmi).
      apply elem_of_bool_filter in Hmi as [Hmi He].
      exists mi. repeat split; [done|]. by apply is_enabled_spec.
    + intros mi Hmi. apply elem_of_bool_filter in Hmi as [Hmi _]. by apply Hok.
  - intros (mi & Hmi & <- & He). rewrite (Permutation_map fst P1).
    rewrite names_of_plugins.
    + apply (list_elem_of_fmap_2 (B:=string) name). apply elem_of_bool_filter.
      split; [done|]. by apply is_enabled_spec.
    + intros mi' Hmi'. apply elem_of_bool_filter in Hmi' as [Hmi' _]. by apply Hok.
  - rewrite (Permutation_map fst P2). by rewrite names_of_plugins.
Qed.

Lemma sources_returns_enabled_set_witness :
  exists l_enabled lg1 l_all lg2,
    sources demo_env_a [1] PNone false [] = (Return l_enabled, lg1) /\
    l_enabled ≡ₚ [("a1", demo_source "a1")] /\
    sources demo_env_a [1] PNone true [] = (Return l_all, lg2) /\
    map fst l_all ≡ₚ ["a1"; "a2"].
Proof.
  destruct (sources_returns_enabled_set demo_env_a [1] None
              demo_root ["a"] [] [] demo_a [] eq_refl eq_refl)
    as (l1 & lg1 & l2 & lg2 & E1 & P1 & _ & E2 & _ & P2).
  - intros mi Hmi. apply list_elem_of_In in Hmi.
    destruct Hmi as [<-|[<-|[]]]; by eexists.
  - exists l1, lg1, l2, lg2. repeat split; assumption.
Defined.







Lemma pack_capable_module_quiet mi acc lg : (pack_capable_module mi acc lg).2 = lg.
Proof.
  unfold pack_capable_module, bind, of_outcome, ret.
  destruct (ispkg mi); [done|].
  destruct (find_module_load_module (module_finder mi) (name mi)) as [m|]; [|done].
  destruct (source m) as [src|]; [|done].
  destruct (pack_capable src) as [flag|]; [|done].
  by destruct (truthy flag).
Qed.

Lemma pack_capable_module_value mi acc lg :
  (ispkg mi = false -> exists v, pack_flag mi = Return v) ->
  pack_capable_module mi acc lg
  = (Return (acc ++ map name (List.filter (fun mi => is_leaf mi && is_pack_capable mi) [mi])),
     lg).
Proof.
  intros H. unfold pack_capable_module, is_leaf, is_pack_capable. cbn [List.filter].
  destruct (ispkg mi); cbn [negb andb map].
  - unfold ret. by rewrite app_nil_r.
  - destruct (H eq_refl) as [v Hv]. rewrite Hv. unfold pack_flag in Hv.
    unfold bind, of_outcome, ret.
    destruct (find_module_load_module (module_finder mi) (name mi)) as [m|]; [|done].
    destruct (source m) as [src|]; [|done]. rewrite Hv.
    destruct (truthy v); cbn [map]; [done|]. by rewrite app_nil_r.
Qed.

Lemma pack_loop_value (g : gen ModuleInfo) ms acc lg :
  gen_list g = Some ms ->
  (forall mi, mi ∈ ms -> ispkg mi = false -> exists v, pack_flag mi = Return v) ->
  for_gen g pack_capable_module acc lg
  = (Return (acc ++ map name (List.filter (fun mi => is_leaf mi && is_pack_capable mi) ms)),
     lg).
Proof.
  revert ms acc. induction g as [|mi g IH|e]; intros ms acc H Hok; cbn [for_gen gen_list] in *.
  - injection H as <-. unfold ret. cbn. by rewrite app_nil_r.
  - destruct (gen_list g) as [ms'|]; [|done]. injection H as <-.
    unfold bind at 1. rewrite pack_capable_module_value by (apply Hok; left).
    rewrite (IH ms') by (done || (intros mi' ?; apply Hok; by right)).
    rewrite <- app_assoc, <- map_app, <- List.filter_app. done.
  - done.
Qed.

(** The loop of [pack_sources] stops at the first leaf module that fails
    to load, with the exception of that load, and leaves the log alone. *)
Lemma pack_loop_stops (g : gen ModuleInfo) pre mi e acc lg :
  yields_after g pre mi ->
  (forall mi', mi' ∈ pre -> ispkg mi' = false -> exists v, pack_flag mi' = Return v) ->
  ispkg mi = false ->
  find_module_load_module (module_finder mi) (name mi) = Raise e ->
  for_gen g pack_capable_module acc lg = (Raise e, lg).
Proof.
  intros Hy Hpre Hp He. revert pre acc Hy Hpre.
  induction g as [|mi' g IH|e0]; intros pre acc Hy Hpre; [by destruct pre| |by destruct pre].
  cbn [for_gen]. destruct pre as [|z pre]; cbn [yields_after] in Hy.
  - subst mi'. unfold bind at 1. unfold pack_capable_module.
    rewrite Hp. unfold bind at 1, of_outcome at 1. by rewrite He.
  - destruct Hy as [-> Hy]. unfold bind at 1.
    rewrite pack_capable_module_value by (apply Hpre; left).
    apply (IH pre); [done|]. intros mi'' H. apply Hpre. by right.
Qed.

(** C3, as stated, fails: on category [b] of the demo tree the load of
    [b1] raises, and [pack_sources] returns [None] to its caller. *)
Lemma pack_sources_swallows_load_failure : ~ load_failure_surfaces.
Proof.
  intros H.
  destruct (H demo_env "b" (mkModuleInfo failing_loader "b1" false) demo_failure [])
    as (e' & lg' & E).
  - by left.
  - reflexivity.
  - reflexivity.
  - discriminate E.
Qed.

(** C3, amended.  When the load of a leaf module of the category raises,
    the entries walked before it having been read without error,
    [pack_sources] aborts the enumeration at that module: no list of names
    is returned, not even for the modules already seen.  An exception of
    class [Exception] does not reach the caller: it is exactly what
    [log_utils.error()] logs, once, and the call returns [None].  Only an
    exception outside class [Exception] surfaces, and then nothing is
    logged. *)
Theorem pack_sources_aborts_on_load_failure
    (env : Env) (category : string) (pre : list ModuleInfo) (mi : ModuleInfo)
    (e : exc) (lg : log) :
  yields_after (walk_packages env [osPath_join (root env) category]) pre mi ->
  (forall mi', mi' ∈ pre -> ispkg mi' = false -> exists v, pack_flag mi' = Return v) ->
  ispkg mi = false ->
  find_module_load_module (module_finder mi) (name mi) = Raise e ->
  pack_sources env (PStr category) lg
  = if is_exception e
    then (Return None, lg ++ [LogTraceback e])
    else (Raise e, lg).
Proof.
  intros Hy Hpre Hp He. unfold pack_sources, try_except. fold (root env).
  cbn [osPath_join_py]. rewrite bind_Return.
  rewrite (bind_run _ _ _ _ _ (pack_loop_stops _ pre mi e [] lg Hy Hpre Hp He)).
  by destruct (is_exception e).
Qed.

Lemma pack_sources_aborts_on_load_failure_witness :
  pack_sources exit_env (PStr "q") [] = (Return None, [LogTraceback demo_failure]) /\
  pack_sources exit_env (PStr "e") [] = (Raise demo_exit, []).
Proof.
  split.
  - apply (pack_sources_aborts_on_load_failure exit_env "q"
             [mkModuleInfo (demo_loader "q1") "q1" false]
             (mkModuleInfo failing_loader "q2" false) demo_failure []).
    + vm_compute. split; reflexivity.
    + intros mi' Hmi' _. apply list_elem_of_In in Hmi'. destruct Hmi' as [<-|[]].
      by eexists.
    + reflexivity.
    + reflexivity.
  - apply (pack_sources_aborts_on_load_failure exit_env "e"
             [mkModuleInfo (demo_loader "e0") "e0" false]
             (mkModuleInfo exit_loader "e1" false) demo_exit []).
    + vm_compute. split; reflexivity.
    + intros mi' Hmi' _. apply list_elem_of_In in Hmi'. destruct Hmi' as [<-|[]].
      by eexists.
    + reflexivity.
    + reflexivity.
Defined.

(** * Facts about [Thread_pool.py] *)

Section ThreadPoolFacts.
Context {W : Type}.
Implicit Types (p : pool W pyval) (c : call W pyval).

Lemma calls_lookup p f c :
  calls p !! f = Some c <-> exists st, work_items p.1 !! f = Some (WorkItem c st).
Proof.
  unfold calls. rewrite list_lookup_fmap. split.
  - destruct (work_items p.1 !! f) as [[c' st]|]; [|done]. intros [= <-]. by exists st.
  - by intros [st ->].
Qed.

Lemma submitted_calls p cs : calls (submitted p cs) = calls p ++ cs.
Proof.
  unfold calls, submitted; cbn. rewrite map_app, map_map. cbn.
  by rewrite map_id.
Qed.

Lemma submitted_running p cs : running p -> running (submitted p cs).
Proof. done. Qed.

Lemma slot_submitted p cs f c : slot p f c -> slot (submitted p cs) f c.
Proof.
  intros (st & Hl & Hst). exists st. split; [|done]. cbn. by apply lookup_app_l_Some.
Qed.

Lemma finished_submitted p cs f c : finished p f c -> finished (submitted p cs) f c.
Proof. intros (w & Hl). exists w. cbn. by apply lookup_app_l_Some. Qed.

Lemma slot_submitted_new p cs i c :
  cs !! i = Some c -> slot (submitted p cs) (length (work_items p.1) + i) c.
Proof.
  intros H. exists PENDING. split; [|by left]. cbn.
  rewrite lookup_app_r by lia.
  replace (length (work_items p.1) + i - length (work_items p.1)) with i by lia.
  by rewrite list_lookup_fmap, H.
Qed.

Lemma fresh_submitted n p cs : fresh_from n p -> fresh_from n (submitted p cs).
Proof.
  intros H f c Hn Hc. rewrite submitted_calls in Hc.
  destruct (decide (f < length (calls p))) as [Hlt|Hge].
  - rewrite lookup_app_l in Hc by done. apply slot_submitted. by apply H.
  - rewrite lookup_app_r in Hc by lia.
    unfold calls in *. rewrite length_map in *.
    replace f with (length (work_items p.1) + (f - length (work_items p.1))) by lia.
    by apply slot_submitted_new.
Qed.

Lemma fresh_complete n g p : fresh_from n p -> fresh_from n (complete g p).
Proof.
  intros H f c Hn Hc. rewrite complete_calls in Hc. apply slot_complete. by apply H.
Qed.

Lemma fresh_settle n fs p : fresh_from n p -> fresh_from n (settle fs p).
Proof.
  revert p. induction fs as [|g fs IH]; intros p H; [done|].
  apply IH. by apply fresh_complete.
Qed.

Lemma fresh_initial p : fresh_from (length (work_items p.1)) p.
Proof.
  intros f c Hn Hc. apply lookup_lt_Some in Hc. unfold calls in Hc.
  rewrite length_map in Hc. lia.
Qed.

Lemma submit_all_submitted (cs : list (call W pyval)) p :
  running p ->
  submit_all cs p = (Return (seq (length (work_items p.1)) (length cs)), submitted p cs).
Proof. apply submit_all_running. Qed.


End ThreadPoolFacts.


Section EffectFacts.
Context {W R A : Type}.
Implicit Types (p : pool W R) (func : A -> call W R).



End EffectFacts.




Section MapFacts.
Context {W : Type}.
Implicit Types (p : pool W pyval) (func : list pyval -> call W pyval).

Lemma star_args_tuple func t w : star_args func (PTuple t) w = func t w.
Proof. reflexivity. Qed.

Lemma submitted_slots p (cs : list (call W pyval)) :
  Forall2 (fun fu c => slot (submitted p cs) fu c)
          (seq (length (work_items p.1)) (length cs)) cs.
Proof.
  apply Forall2_same_length_lookup_2; [by rewrite length_seq|].
  intros i fu c Hs Hc. apply lookup_seq in Hs as [-> _]. by apply slot_submitted_new.
Qed.

Lemma run_and_wait_multi_submits func iterable p :
  running p ->
  run_and_wait_multi func iterable p
  = (Return (ResultIterator (seq (length (work_items p.1)) (length iterable))),
     submitted p (map (star_args func) iterable)).
Proof.
  intros Hr. unfold run_and_wait_multi, Executor_map, bind, ret.
  rewrite submit_all_submitted by done. by rewrite length_map.
Qed.

Lemma next_yields func t v fu rest bg p :
  slot p fu (star_args func (PTuple t)) ->
  (forall w, (func t w).1 = Return v) ->
  next bg (ResultIterator (fu :: rest)) p
  = (Yield v, ResultIterator rest, complete fu (settle bg p)).
Proof.
  intros Hs Hv. unfold next. cbn [remaining].
  destruct (result_slot _ _ _ (slot_settle bg _ _ _ Hs)) as [w ->].
  by rewrite star_args_tuple, Hv.
Qed.



Lemma slots_step func (fs : list nat) (ts : list (list pyval)) p (fu : nat) bg :
  Forall2 (fun g t => slot p g (star_args func (PTuple t))) fs ts ->
  Forall2 (fun g t => slot (complete fu (settle bg p)) g (star_args func (PTuple t))) fs ts.
Proof.
  intros H. eapply Forall2_impl; [exact H|].
  intros g t Hs. apply slot_complete. by apply slot_settle.
Qed.

Lemma drain_S k bgs (it : result_iterator) p :
  drain (S k) bgs it p
  = match next (hd [] bgs) it p with
    | (StopIteration, _, p') => (Return [], p')
    | (Throw e, _, p') => (Raise e, p')
    | (Yield v, it', p') =>
        match drain k (tl bgs) it' p' with
        | (Return vs, p'') => (Return (v :: vs), p'')
        | (Raise e, p'') => (Raise e, p'')
        end
    end.
Proof. reflexivity. Qed.

Lemma drain_values func (f : list pyval -> pyval) ts fs bgs p :
  Forall2 (fun fu t => slot p fu (star_args func (PTuple t))) fs ts ->
  (forall t w, t ∈ ts -> (func t w).1 = Return (f t)) ->
  exists p', drain (S (length fs)) bgs (ResultIterator fs) p = (Return (map f ts), p').
Proof.
  revert fs bgs p. induction ts as [|t ts IH]; intros fs bgs p HF Hd.
  - apply Forall2_nil_inv_r in HF as ->. by eexists.
  - apply Forall2_cons_inv_r in HF as (fu & fs' & Hs & HF & ->).
    cbn [length]. rewrite drain_S.
    rewrite (next_yields func t (f t)); [|done|intros w; apply Hd; by left].
    destruct (IH fs' (tl bgs) (complete fu (settle (hd [] bgs) p))) as [p' Hp'].
    + by apply (slots_step func fs' ts p fu).
    + intros t' w Ht'. apply Hd. by right.
    + rewrite Hp'. by eexists.
Qed.


End MapFacts.

(** C7.  On a running pool, for a function that does not raise on any of
    the argument tuples, [run_and_wait_multi] returns a lazy sequence
    which, iterated to its end, gives [[func( *t) for t in tuples]] in
    the order of the tuples, whatever the order in which the workers
    finish the calls in the meantime ([bgs]). *)
Theorem run_and_wait_multi_in_order {W : Type}
    (func : list pyval -> call W pyval) (f : list pyval -> pyval)
    (tuples : list (list pyval)) (p : pool W pyval) :
  running p ->
  (forall t w, t ∈ tuples -> (func t w).1 = Return (f t)) ->
  exists it p1,
    run_and_wait_multi func (map PTuple tuples) p = (Return it, p1) /\
    calls p1 = calls p ++ map (star_args func) (map PTuple tuples) /\
    forall bgs, exists p2, py_list bgs it p1 = (Return (map f tuples), p2).
Proof.
  intros Hr Hd. rewrite run_and_wait_multi_submits by done.
  eexists _, _. split; [done|]. split; [by rewrite submitted_calls|].
  intros bgs. unfold py_list. cbn [remaining].
  apply (drain_values func f tuples); [|done].
  pose proof (submitted_slots p (map (star_args func) (map PTuple tuples))) as HF.
  rewrite !length_map in *. rewrite map_map in *.
  apply (proj1 (Forall2_fmap_r _ _ _ _)) in HF. exact HF.
Qed.

Lemma run_and_wait_multi_in_order_witness :
  exists it p1,
    run_and_wait_multi demo_add
      (map PTuple [[PInt 1; PInt 2]; [PInt 3; PInt 4]; [PInt 5; PInt 6]]) (tp, tt)
    = (Return it, p1) /\
    exists p2, py_list [[2]; [1; 0]] it p1 = (Return [PInt 3; PInt 7; PInt 11], p2).
Proof.
  destruct (run_and_wait_multi_in_order demo_add demo_sum
              [[PInt 1; PInt 2]; [PInt 3; PInt 4]; [PInt 5; PInt 6]] (tp, tt) eq_refl)
    as (it & p1 & E & _ & H).
  - intros t w Ht. apply list_elem_of_In in Ht.
    destruct Ht as [<-|[<-|[<-|[]]]]; reflexivity.
  - exists it, p1. split; [exact E|]. apply (H [[2]; [1; 0]]).
Defined.



(** C5.  [run_pipelined] on the single item [0], with a producer that
    returns the single value [0] for it: the call returns [None] after
    the producer task, and no consumer task was submitted, because
    [if results:] is false for [0]; for the item [3], whose producer
    returns the single value [20], the consumer task is submitted.  The
    docstring and the specification have every single (non-list) result
    consumed. *)
Theorem run_pipelined_drops_falsy_item :
  (exists p',
     run_pipelined [] [] demo_producer demo_consumer [PInt 0] (tp, tt) = (Return PNone, p') /\
     (demo_producer (PInt 0) tt).1 = Return (PInt 0) /\
     calls p' = [demo_producer (PInt 0)] /\
     finished p' 0 (demo_producer (PInt 0))) /\
  (exists p',
     run_pipelined [] [] demo_producer demo_consumer [PInt 3] (tp, tt) = (Return PNone, p') /\
     (demo_producer (PInt 3) tt).1 = Return (PInt 20) /\
     calls p' = [demo_producer (PInt 3); demo_consumer (PInt 20)] /\
     finished p' 1 (demo_consumer (PInt 20))).
Proof.
  split.
  - eexists. split; [reflexivity|]. split; [reflexivity|]. split; [reflexivity|].
    by exists tt.
  - eexists. split; [reflexivity|]. split; [reflexivity|]. split; [reflexivity|].
    by exists tt.
Qed.

(** * Further properties of [__init__.py] *)

(** What [sources] gives, for every input: [[]] when the enumeration
    raises an exception of class [Exception], which is logged; the
    plugins of the kept leaf modules that load, in some order, when no load
    of a kept module ends outside class [Exception]; else the exception of
    the enumeration or of such a load. *)
Lemma sources_outcome env sched specified_folders ret_all lg :
  match enumeration env specified_folders with
  | Raise e =>
      if is_exception e
      then exists lg0, sources env sched specified_folders ret_all lg
                       = (Return [], lg0 ++ [LogTraceback e])
      else exists lg', sources env sched specified_folders ret_all lg = (Raise e, lg')
  | Return leaves =>
      let ks := List.filter (fun mi => ret_all || is_enabled env (name mi)) leaves in
      if forallb load_catchable ks
      then exists l lg', sources env sched specified_folders ret_all lg = (Return l, lg') /\
                         l ≡ₚ omap plugin ks
      else exists mi e lg', mi ∈ ks /\
                            load_outcome (module_finder mi) (name mi) = Raise e /\
                            is_exception e = false /\
                            sources env sched specified_folders ret_all lg = (Raise e, lg')
  end.
Proof.
  destruct (sources_try_outcome env sched specified_folders ret_all lg) as [lg' H].
  unfold sources, try_except.
  destruct (enumeration env specified_folders) as [leaves|e].
  - cbn zeta in *.
    destruct (forallb load_catchable _).
    + destruct H as (l & -> & Hp). by exists l, lg'.
    + destruct H as (mi & e & Hmi & He & Hx & ->). rewrite Hx. by exists mi, e, lg'.
  - rewrite H. destruct (is_exception e); by eexists.
Qed.






(** X2.  The order in which the loads complete changes only the order of
    the result: for every input, two calls of [sources] that differ in
    the completion order either both return, and then permutations of the
    same list, or both raise an exception outside class [Exception] (the
    load of a kept module, or the enumeration, exited). *)
Theorem sources_schedule_independent
    (env : Env) (sched1 sched2 : list nat) (specified_folders : pyval)
    (ret_all : bool) (lg : log) :
  (exists l1 lg1 l2 lg2,
     sources env sched1 specified_folders ret_all lg = (Return l1, lg1) /\
     sources env sched2 specified_folders ret_all lg = (Return l2, lg2) /\
     l1 ≡ₚ l2) \/
  (exists e1 lg1 e2 lg2,
     sources env sched1 specified_folders ret_all lg = (Raise e1, lg1) /\
     sources env sched2 specified_folders ret_all lg = (Raise e2, lg2) /\
     is_exception e1 = false /\ is_exception e2 = false).
Proof.
  pose proof (sources_outcome env sched1 specified_folders ret_all lg) as H1.
  pose proof (sources_outcome env sched2 specified_folders ret_all lg) as H2.
  destruct (enumeration env specified_folders) as [leaves|e].
  - cbn zeta in *. destruct (forallb load_catchable _).
    + destruct H1 as (l1 & lg1 & E1 & P1), H2 as (l2 & lg2 & E2 & P2).
      left. exists l1, lg1, l2, lg2. split; [done|]. split; [done|]. by rewrite P1, P2.
    + destruct H1 as (mi1 & e1 & lg1 & _ & _ & X1 & E1), H2 as (mi2 & e2 & lg2 & _ & _ & X2 & E2).
      right. by exists e1, lg1, e2, lg2.
  - destruct (is_exception e) eqn:Hx.
    + destruct H1 as [lg1 E1], H2 as [lg2 E2]. left. by eexists [], _, [], _.
    + destruct H1 as [lg1 E1], H2 as [lg2 E2]. right. by exists e, lg1, e, lg2.
Qed.



Lemma selected_py_folders env specified d dirs files rest :
  osWalk env (root env) = (d, dirs, files) :: rest ->
  selected_folders env (py_folders specified)
  = Return (map PStr (categories dirs specified)).
Proof.
  intros Hw. unfold selected_folders. rewrite Hw. cbn [map index0 fst snd].
  by destruct specified as [[|c cs]|].
Qed.

Lemma walk_raises env pre d post e :
  (forall d', d' ∈ pre ->
     exists ms, gen_outcome (walk_packages env [osPath_join (root env) d']) = Return ms) ->
  gen_outcome (walk_packages env [osPath_join (root env) d]) = Raise e ->
  walk env (map PStr (pre ++ d :: post)) = Raise e.
Proof.
  intros Hpre He. induction pre as [|d' pre IH]; cbn [app map walk osPath_join_py].
  - by rewrite He.
  - destruct (Hpre d') as [ms ->]; [left|].
    rewrite IH; [done|]. intros d'' H. apply Hpre. by right.
Qed.

(** X4.  An error of the enumeration empties the whole result: when the
    walk of one selected category raises an exception of class
    [Exception], after the categories before it were walked without
    error, [sources] returns [[]] and logs that exception, whatever the
    other categories hold. *)
Theorem sources_empty_when_walk_raises
    (env : Env) (sched : list nat) (specified : option (list string)) (ret_all : bool)
    d0 dirs files rest (pre : list string) (d : string) (post : list string)
    (e : exc) (lg : log) :
  osWalk env (root env) = (d0, dirs, files) :: rest ->
  categories dirs specified = pre ++ d :: post ->
  (forall d', d' ∈ pre ->
     exists ms, gen_outcome (walk_packages env [osPath_join (root env) d']) = Return ms) ->
  gen_outcome (walk_packages env [osPath_join (root env) d]) = Raise e ->
  is_exception e = true ->
  exists lg0,
    sources env sched (py_folders specified) ret_all lg
    = (Return [], lg0 ++ [LogTraceback e]).
Proof.
  intros Hw Hc Hpre He Hx.
  pose proof (sources_outcome env sched (py_folders specified) ret_all lg) as H.
  unfold enumeration in H. rewrite (selected_py_folders _ _ _ _ _ _ Hw), Hc in H.
  rewrite (walk_raises env pre d post e Hpre He), Hx in H. exact H.
Qed.

Lemma sources_empty_when_walk_raises_witness :
  exists lg0,
    sources broken_walk_env [1] PNone true []
    = (Return [], lg0 ++ [LogTraceback (Exception "SyntaxError" "invalid syntax")]).
Proof.
  apply (sources_empty_when_walk_raises broken_walk_env [1] None true
           demo_root ["a"; "x"] [] [] ["a"] "x" []).
  - reflexivity.
  - reflexivity.
  - intros d' Hd. apply list_elem_of_In in Hd. destruct Hd as [<-|[]]. by eexists.
  - reflexivity.
  - reflexivity.
Defined.

Lemma plugin_names_sublist (ms : list ModuleInfo) :
  map fst (omap plugin ms) `sublist_of` map name ms.
Proof.
  induction ms as [|mi ms IH]; [done|]. rewrite omap_cons. cbn [map].
  destruct (plugin mi) as [x|] eqn:E.
  - cbn [map]. rewrite (plugin_name _ _ E). by constructor.
  - by constructor.
Qed.

Lemma filter_names_sublist (P : ModuleInfo -> bool) (ms : list ModuleInfo) :
  map name (List.filter P ms) `sublist_of` map name ms.
Proof.
  induction ms as [|mi ms IH]; [done|]. cbn [List.filter map].
  destruct (P mi); by constructor.
Qed.

(** X5.  [sources] adds no duplicates: when the leaf modules of the
    selected categories have pairwise different names, and none of their
    loads ends with an exception outside class [Exception], the plugins
    returned have pairwise different names. *)
Theorem sources_no_duplicates
    (env : Env) (sched : list nat) (specified : option (list string)) (ret_all : bool)
    d dirs files rest (leaves : list ModuleInfo) (lg : log) :
  osWalk env (root env) = (d, dirs, files) :: rest ->
  leaf_modules env (categories dirs specified) = Some leaves ->
  (forall mi, mi ∈ leaves ->
              catchable (load_outcome (module_finder mi) (name mi)) = true) ->
  NoDup (map name leaves) ->
  exists l lg',
    sources env sched (py_folders specified) ret_all lg = (Return l, lg') /\
    NoDup (map fst l).
Proof.
  intros Hw Hl Hc Hnd.
  destruct (sources_value env sched specified ret_all _ _ _ _ _ lg Hw Hl Hc)
    as (l & lg' & E & P).
  exists l, lg'. split; [done|]. rewrite (Permutation_map fst P).
  eapply sublist_NoDup; [|apply plugin_names_sublist].
  eapply sublist_NoDup; [exact Hnd|apply filter_names_sublist].
Qed.

Lemma sources_no_duplicates_witness :
  exists l lg', sources demo_env [3; 1] PNone true [] = (Return l, lg') /\ NoDup (map fst l).
Proof.
  apply (sources_no_duplicates demo_env [3; 1] None true
           demo_root ["a"; "b"] [] [] (demo_a ++ demo_b) [] eq_refl eq_refl).
  - intros mi Hmi. apply list_elem_of_In in Hmi.
    destruct Hmi as [<-|[<-|[<-|[]]]]; reflexivity.
  - cbn. repeat constructor; rewrite list_elem_of_In; cbn; intuition discriminate.
Defined.

(** State invariants through the monad: what holds of the state after
    each step holds after the whole, whether it returns or raises. *)
Lemma bind_state {S A B} (I : S -> Prop) (m : M S A) (k : A -> M S B) s :
  I (m s).2 -> (forall a s', I s' -> I (k a s').2) -> I (bind m k s).2.
Proof.
  intros Hm Hk. unfold bind. destruct (m s) as [[a|e] s']; cbn in *; [by apply Hk|done].
Qed.

Lemma for_list_state {S A B} (I : S -> Prop) (l : list A) (body : A -> B -> M S B) acc s :
  (forall x acc s', x ∈ l -> I s' -> I (body x acc s').2) ->
  I s -> I (for_list l body acc s).2.
Proof.
  revert acc s. induction l as [|x l IH]; intros acc s Hb Hs; cbn [for_list]; [done|].
  apply bind_state.
  - apply Hb; [left|done].
  - intros a s' Hs'. apply IH; [|done]. intros y acc' s'' Hy. apply Hb. by right.
Qed.

Lemma for_gen_state {S A B} (I : S -> Prop) (g : gen A) (body : A -> B -> M S B) acc s :
  (forall x acc s', yields g x -> I s' -> I (body x acc s').2) ->
  I s -> I (for_gen g body acc s).2.
Proof.
  revert acc s. induction g as [|x g IH|e]; intros acc s Hb Hs; cbn [for_gen]; [done| |done].
  apply bind_state.
  - apply Hb; [by left|done].
  - intros a s' Hs'. apply IH; [|done]. intros y acc' s'' Hy. apply Hb. by right.
Qed.

Lemma gen_list_yields {A} (g : gen A) ms x : gen_list g = Some ms -> yields g x -> x ∈ ms.
Proof.
  revert ms. induction g as [|y g IH|e]; intros ms H Hy; cbn in *; try done.
  destruct (gen_list g) as [ms'|]; [|done]. injection H as <-.
  destruct Hy as [->|Hy]; [left|right]. by apply IH.
Qed.

Lemma leaf_modules_yields env dirs leaves d mi :
  leaf_modules env dirs = Some leaves -> d ∈ dirs ->
  yields (walk_packages env [osPath_join (root env) d]) mi -> ispkg mi = false ->
  mi ∈ leaves.
Proof.
  revert leaves. induction dirs as [|d' dirs IH]; intros leaves H Hd Hy Hp.
  - by apply elem_of_nil in Hd.
  - cbn [leaf_modules] in H.
    destruct (gen_list (walk_packages env [osPath_join (root env) d'])) as [ms|] eqn:Eg; [|done].
    destruct (leaf_modules env dirs) as [rest|]; [|done]. injection H as <-.
    apply elem_of_app. apply elem_of_cons in Hd as [->|Hd].
    + left. apply elem_of_bool_filter. split; [by eapply gen_list_yields|]. by rewrite Hp.
    + right. by apply IH.
Qed.

Section QuietExecutor.
Context {W R : Type}.
Implicit Types (p : pool W R).

Lemma complete_quiet f p : quiet p -> quiet (complete f p) /\ (complete f p).2 = p.2.
Proof.
  intros Hq. unfold complete.
  destruct (work_items p.1 !! f) as [[c [| |]]|] eqn:E; try done.
  pose proof (Hq f _ E p.2) as Hc. cbn in Hc.
  destruct (c p.2) as [o w']. cbn in *. subst w'. split; [|done].
  intros g wi Hg w. cbn in Hg. destruct (decide (f = g)) as [->|Hne].
  - rewrite list_lookup_insert_eq in Hg by (by eapply lookup_lt_Some).
    injection Hg as <-. apply (Hq g _ E).
  - rewrite list_lookup_insert_ne in Hg by done. by apply (Hq g).
Qed.

Lemma settle_quiet fs p : quiet p -> quiet (settle fs p) /\ (settle fs p).2 = p.2.
Proof.
  revert p. induction fs as [|f fs IH]; intros p Hq; [done|]. cbn.
  destruct (complete_quiet f p Hq) as [Hq1 <-]. by apply IH.
Qed.

Lemma shutdown_quiet p : quiet p -> (shutdown p).2 = p.2.
Proof. intros Hq. unfold shutdown. cbn. by apply settle_quiet. Qed.

End QuietExecutor.

Lemma _load_module_quiet env loader module_name lg :
  debug env = false -> (_load_module env loader module_name lg).2 = lg.
Proof.
  intros Hd. unfold _load_module, try_except, bind, of_outcome. rewrite Hd.
  destruct (find_spec_load_module loader module_name) as [m|e].
  - destruct (source m) as [src|e]; [done|]. by destruct (is_exception e).
  - by destruct (is_exception e).
Qed.

Lemma append_step_state f acc (p : pool log (option (string * Source))) :
  ((await f ;;; append_result f acc) p).2 = complete f (complete f p).
Proof.
  unfold bind at 1. unfold await. unfold append_result, bind, result.
  destruct (work_items (complete f (complete f p)).1 !! f) as [[c [|[[r|]|e]|]]|]; done.
Qed.

Lemma load_in_parallel_quiet env sched mods acc lg :
  debug env = false -> (load_in_parallel env sched mods acc lg).2 = lg.
Proof.
  intros Hd. unfold load_in_parallel, with_executor, for_as_completed.
  unfold bind at 1. rewrite submit_all_running by done.
  cbn [fst snd new_executor work_items app].
  set (p0 := (set_items _ _, lg)).
  assert (quiet p0 /\ p0.2 = lg) as H0.
  { split; [|done]. intros f wi Hf w. subst p0. cbn in Hf.
    rewrite !list_lookup_fmap in Hf.
    destruct (mods !! f) as [m|]; [|done]. injection Hf as <-. cbn.
    by apply _load_module_quiet. }
  match goal with
  | |- context [for_list ?l ?b ?a ?s] => set (X := for_list l b a s)
  end.
  assert (quiet X.2 /\ X.2.2 = lg) as [Hq Hw].
  { subst X. apply (for_list_state (fun p => quiet p /\ p.2 = lg)); [|done].
    intros f acc' p1 _ [Hq1 Hw1]. rewrite append_step_state.
    destruct (complete_quiet f p1 Hq1) as [Hq2 Hw2].
    destruct (complete_quiet f _ Hq2) as [Hq3 Hw3]. split; [done|]. congruence. }
  destruct X as [r p']. cbn [snd] in *. by rewrite shutdown_quiet.
Qed.

Lemma enabledCheck_quiet env module_name v lg :
  getSetting env ("provider." +:+ module_name) = Return v ->
  (enabledCheck env module_name lg).2 = lg.
Proof.
  intros H. unfold enabledCheck, try_except, bind, of_outcome. rewrite H.
  by destruct (py_eq_str v "true").
Qed.

Lemma keep_module_quiet env ret_all mi acc lg :
  (ispkg mi = false ->
   ret_all = true \/ exists v, getSetting env ("provider." +:+ name mi) = Return v) ->
  (keep_module env ret_all mi acc lg).2 = lg.
Proof.
  intros H. unfold keep_module. destruct (ispkg mi); [done|].
  destruct (H eq_refl) as [->|[v Hv]].
  - done.
  - apply (bind_state (fun s => s = lg)).
    + destruct ret_all; [done|]. by eapply enabledCheck_quiet.
    + intros [] s' ->; done.
Qed.

Lemma sources_try_value env sched specified ret_all d dirs files rest leaves lg :
  osWalk env (root env) = (d, dirs, files) :: rest ->
  leaf_modules env (categories dirs specified) = Some leaves ->
  (forall mi, mi ∈ leaves ->
              catchable (load_outcome (module_finder mi) (name mi)) = true) ->
  exists l lg',
    sources_try env sched (py_folders specified) ret_all lg = (Return l, lg').
Proof.
  intros Hw Hl Hc. unfold sources_try.
  fold (root env). rewrite Hw. cbn [map index0 fst snd].
  unfold bind at 1. unfold of_outcome at 1.
  assert (py_iter (if truthy (py_folders specified) then py_folders specified
                   else PList (map PStr dirs))
          = Return (map PStr (categories dirs specified))) as ->.
  { destruct specified as [[|c cs]|]; done. }
  unfold bind at 1. unfold of_outcome at 1. unfold bind at 1.
  destruct (collect_modules_value env ret_all _ leaves lg Hl) as [lg1 ->].
  destruct (load_in_parallel_value env sched (kept env ret_all leaves) lg1)
    as (l & lg2 & -> & _); [by apply kept_catchable|].
  by exists l, lg2.
Qed.

Lemma sources_try_quiet env sched specified ret_all d dirs files rest leaves lg :
  debug env = false ->
  osWalk env (root env) = (d, dirs, files) :: rest ->
  leaf_modules env (categories dirs specified) = Some leaves ->
  (ret_all = true \/
   forall mi, mi ∈ leaves -> exists v, getSetting env ("provider." +:+ name mi) = Return v) ->
  (sources_try env sched (py_folders specified) ret_all lg).2 = lg.
Proof.
  intros Hd Hw Hl Hs. unfold sources_try.
  fold (root env). rewrite Hw. cbn [map index0 fst snd].
  unfold bind at 1. unfold of_outcome at 1.
  assert (py_iter (if truthy (py_folders specified) then py_folders specified
                   else PList (map PStr dirs))
          = Return (map PStr (categories dirs specified))) as ->.
  { destruct specified as [[|c cs]|]; done. }
  unfold bind at 1. unfold of_outcome at 1.
  apply (bind_state (fun s => s = lg)).
  - unfold collect_modules. apply (for_list_state (fun s => s = lg)); [|done].
    intros x acc s' Hx ->.
    apply (list_elem_of_fmap (B:=pyval)) in Hx as (c & -> & Hc).
    cbn [osPath_join_py]. unfold bind at 1. unfold of_outcome at 1.
    apply (for_gen_state (fun s => s = lg)); [|done].
    intros mi acc' s' Hy ->. apply keep_module_quiet. intros Hp.
    destruct Hs as [->|Hs]; [by left|right].
    apply Hs. by eapply leaf_modules_yields.
  - intros mods s' ->. by apply load_in_parallel_quiet.
Qed.

(** X6.  With diagnostics off a failed load leaves no trace: when [debug]
    is false and no settings lookup raises (or [ret_all] is set, so that
    none is made), [sources] on a tree whose walk succeeds returns its
    list and leaves the log as it was, also when some modules fail to
    load with an exception of class [Exception]. *)
Theorem sources_silent_without_debug
    (env : Env) (sched : list nat) (specified : option (list string)) (ret_all : bool)
    d dirs files rest (leaves : list ModuleInfo) (lg : log) :
  debug env = false ->
  osWalk env (root env) = (d, dirs, files) :: rest ->
  leaf_modules env (categories dirs specified) = Some leaves ->
  (forall mi, mi ∈ leaves ->
              catchable (load_outcome (module_finder mi) (name mi)) = true) ->
  (ret_all = true \/
   forall mi, mi ∈ leaves -> exists v, getSetting env ("provider." +:+ name mi) = Return v) ->
  exists l, sources env sched (py_folders specified) ret_all lg = (Return l, lg).
Proof.
  intros Hd Hw Hl Hc Hs.
  destruct (sources_try_value env sched specified ret_all _ _ _ _ _ lg Hw Hl Hc)
    as (l & lg' & E).
  pose proof (sources_try_quiet env sched specified ret_all _ _ _ _ _ lg Hd Hw Hl Hs) as Hq.
  rewrite E in Hq. cbn in Hq. subst lg'.
  exists l. unfold sources, try_except. by rewrite E.
Qed.

Lemma sources_silent_without_debug_witness :
  exists l, sources silent_env [1; 1] PNone false [LogLine LOGINFO "start"]
            = (Return l, [LogLine LOGINFO "start"]).
Proof.
  apply (sources_silent_without_debug silent_env [1; 1] None false
           demo_root ["a"; "b"] [] [] (demo_a ++ demo_b) _ eq_refl eq_refl eq_refl).
  - intros mi Hmi. apply list_elem_of_In in Hmi.
    destruct Hmi as [<-|[<-|[<-|[]]]]; reflexivity.
  - right. intros mi Hmi. apply list_elem_of_In in Hmi.
    destruct Hmi as [<-|[<-|[<-|[]]]]; by eexists.
Defined.

(** X7.  When every leaf module of the category loads and has a
    [pack_capable] attribute, [pack_sources] returns the names of the leaf
    modules whose flag is truthy, in walking order; packages are skipped,
    the settings store is not consulted and nothing is logged. *)
Theorem pack_sources_lists_pack_capable
    (env : Env) (category : string) (ms : list ModuleInfo) (lg : log) :
  gen_list (walk_packages env [osPath_join (root env) category]) = Some ms ->
  (forall mi, mi ∈ ms -> ispkg mi = false -> exists v, pack_flag mi = Return v) ->
  pack_sources env (PStr category) lg
  = (Return (Some (map name
                     (List.filter (fun mi => is_leaf mi && is_pack_capable mi) ms))),
     lg).
Proof.
  intros Hg Hok. unfold pack_sources, try_except. fold (root env).
  cbn [osPath_join_py]. unfold bind at 1, of_outcome at 1. unfold bind at 1.
  by rewrite (pack_loop_value _ ms [] lg Hg Hok).
Qed.

Lemma pack_sources_lists_pack_capable_witness :
  pack_sources pack_env (PStr "p") [] = (Return (Some ["p1"; "p3"]), []).
Proof.
  apply (pack_sources_lists_pack_capable pack_env "p"
           [mkModuleInfo failing_loader "pkg" true;
            mkModuleInfo (pack_loader "p1" (PBool true)) "p1" false;
            mkModuleInfo (pack_loader "p2" (PBool false)) "p2" false;
            mkModuleInfo (pack_loader "p3" (PInt 1)) "p3" false] [] eq_refl).
  intros mi Hmi Hp. apply list_elem_of_In in Hmi.
  destruct Hmi as [<-|[<-|[<-|[<-|[]]]]]; try discriminate Hp; by eexists.
Defined.

Lemma pack_loop_outcome (g : gen ModuleInfo) acc lg :
  for_gen g pack_capable_module acc lg
  = (match pack_names g with
     | Return l => Return (acc ++ l)
     | Raise e => Raise e
     end, lg).
Proof.
  revert acc. induction g as [|mi g IH|e]; intros acc; cbn [for_gen pack_names].
  - unfold ret. by rewrite app_nil_r.
  - unfold bind at 1. unfold pack_capable_module, pack_flag.
    destruct (ispkg mi); [apply IH|].
    unfold bind, of_outcome, ret.
    destruct (find_module_load_module (module_finder mi) (name mi)) as [m|]; [|done].
    destruct (source m) as [src|]; [|done].
    destruct (pack_capable src) as [flag|]; [|done].
    destruct (truthy flag); rewrite IH; destruct (pack_names g) as [l|]; try done.
    by rewrite <- app_assoc.
  - done.
Qed.

(** X8.  [pack_sources] raises no exception of class [Exception].  When
    the walk of the folder and the reads of its leaf modules go through,
    it returns the names collected and leaves the log alone.  Otherwise
    the first exception met decides: when it is of class [Exception] the
    call returns [None] and the log grows by exactly the traceback of
    that exception; else the call raises it and nothing is logged. *)
Theorem pack_sources_raises_no_Exception
    (env : Env) (sourceSubFolder : pyval) (lg : log) :
  pack_sources env sourceSubFolder lg
  = match pack_outcome env sourceSubFolder with
    | Return l => (Return (Some l), lg)
    | Raise e =>
        if is_exception e
        then (Return None, lg ++ [LogTraceback e])
        else (Raise e, lg)
    end /\
  ((exists l, pack_sources env sourceSubFolder lg = (Return (Some l), lg)) \/
   (exists e, is_exception e = true /\
              pack_sources env sourceSubFolder lg = (Return None, lg ++ [LogTraceback e])) \/
   (exists e, is_exception e = false /\
              pack_sources env sourceSubFolder lg = (Raise e, lg))).
Proof.
  assert (pack_sources env sourceSubFolder lg
          = match pack_outcome env sourceSubFolder with
            | Return l => (Return (Some l), lg)
            | Raise e =>
                if is_exception e
                then (Return None, lg ++ [LogTraceback e])
                else (Raise e, lg)
            end) as E.
  { unfold pack_sources, pack_outcome, try_except. fold (root env).
    destruct (osPath_join_py (root env) sourceSubFolder) as [p|e].
    - rewrite bind_Return. rewrite (bind_run _ _ _ _ _ (pack_loop_outcome _ [] lg)).
      destruct (pack_names (walk_packages env [p])) as [l|e]; [done|].
      by destruct (is_exception e).
    - rewrite bind_Raise. by destruct (is_exception e). }
  split; [exact E|]. rewrite E.
  destruct (pack_outcome env sourceSubFolder) as [l|e].
  - left. by exists l.
  - right. destruct (is_exception e) eqn:Hx.
    + left. by exists e.
    + right. by exists e.
Qed.

(** * Further properties of [Thread_pool.py] *)

Section PipelineFacts.
Context {W : Type}.
Implicit Types (p : pool W pyval) (c : call W pyval) (cfs : list nat).

Lemma submitted_nil p : submitted p [] = p.
Proof. destruct p as [[n b l] w]. unfold submitted, set_items; cbn. by rewrite app_nil_r. Qed.

Lemma submitted_app p cs1 cs2 :
  submitted (submitted p cs1) cs2 = submitted p (cs1 ++ cs2).
Proof. unfold submitted, set_items; cbn. by rewrite map_app, app_assoc. Qed.

Lemma submitted_length p cs :
  length (work_items (submitted p cs).1) = length (work_items p.1) + length cs.
Proof. unfold submitted; cbn. by rewrite length_app, length_map. Qed.

Lemma calls_length p : length (calls p) = length (work_items p.1).
Proof. unfold calls. by rewrite length_map. Qed.

Lemma submit_one (consumer : pyval -> call W pyval) v p cfs :
  running p ->
  (f <- lift (submit (consumer v)) ;; local_append f) (p, cfs)
  = (Return tt, (submitted p [consumer v], cfs ++ [length (work_items p.1)])).
Proof.
  intros Hr. unfold bind, lift. cbn [fst snd]. by rewrite submit_running.
Qed.

Lemma submit_each (consumer : pyval -> call W pyval) l p cfs :
  running p ->
  for_list l
    (fun result _ => f <- lift (submit (consumer result)) ;; local_append f) tt (p, cfs)
  = (Return tt, (submitted p (map consumer l),
                 cfs ++ seq (length (work_items p.1)) (length l))).
Proof.
  revert p cfs. induction l as [|v l IH]; intros p cfs Hr; cbn [for_list].
  - unfold ret. by rewrite submitted_nil, app_nil_r.
  - unfold bind at 1. rewrite submit_one by done.
    rewrite IH by done. rewrite submitted_app, submitted_length. cbn [length map app].
    rewrite <- app_assoc. cbn [app seq].
    by replace (length (work_items p.1) + 1) with (S (length (work_items p.1))) by lia.
Qed.

Lemma forward_results_value (consumer : pyval -> call W pyval) f c o p cfs :
  running p -> slot p f c -> (forall w, (c w).1 = o) -> catchable o = true ->
  (lift (await f) ;;; forward_results consumer f) (p, cfs)
  = (Return tt, (submitted (complete f (complete f p)) (map consumer (forward o)),
                 cfs ++ seq (length (work_items p.1)) (length (forward o)))).
Proof.
  intros Hr Hs Ho Hc. unfold bind at 1. unfold lift at 1, await at 1. cbn [fst snd].
  pose proof (slot_complete f _ _ _ Hs) as Hs1.
  destruct (result_slot _ _ _ Hs1) as [w Hres]. rewrite Ho in Hres.
  assert (running (complete f (complete f p))) as Hr2.
  { unfold running. by rewrite !complete_flag. }
  assert (length (work_items (complete f (complete f p)).1) = length (work_items p.1)) as Hlen.
  { by rewrite !complete_length. }
  unfold forward_results, try_except. unfold bind at 1. unfold lift at 1. cbn [fst snd].
  rewrite Hres.
  destruct o as [v|e]; cbn [forward].
  - destruct (truthy v) eqn:Ht.
    + destruct v; try discriminate Ht;
        try (rewrite submit_one by done; by rewrite Hlen).
      rewrite submit_each by done. by rewrite Hlen.
    + unfold ret. by rewrite submitted_nil, app_nil_r.
  - cbn [catchable] in Hc. rewrite Hc. unfold ret. by rewrite submitted_nil, app_nil_r.
Qed.

(** The exception of a producer that is not of class [Exception] passes
    the handler in the loop of [run_pipelined]. *)
Lemma forward_results_exits (consumer : pyval -> call W pyval) f c e p cfs :
  slot p f c -> (forall w, (c w).1 = Raise e) -> is_exception e = false ->
  (lift (await f) ;;; forward_results consumer f) (p, cfs)
  = (Raise e, (complete f (complete f p), cfs)).
Proof.
  intros Hs Ho Hx. unfold bind at 1. unfold lift at 1, await at 1. cbn [fst snd].
  pose proof (slot_complete f _ _ _ Hs) as Hs1.
  destruct (result_slot _ _ _ Hs1) as [w Hres]. rewrite Ho in Hres.
  unfold forward_results, try_except. unfold bind at 1. unfold lift at 1. cbn [fst snd].
  by rewrite Hres, Hx.
Qed.

Lemma wait_or_skip sched cfs p :
  (if negb (Nat.eqb (length cfs) 0) then wait sched cfs else ret tt) p
  = (Return tt, settle (completion_order sched cfs) p).
Proof.
  destruct cfs as [|f cfs]; [|done]. cbn. by destruct sched.
Qed.

Lemma pipeline_loop (consumer : pyval -> call W pyval) (out : nat -> list pyval) n0
    order p cfs :
  running p -> fresh_from n0 p ->
  (forall f, f ∈ order ->
     n0 <= f /\ exists c o, calls p !! f = Some c /\ (forall w, (c w).1 = o) /\
                            catchable o = true /\ out f = forward o) ->
  exists p',
    for_list order
      (fun future _ => lift (await future) ;;; forward_results consumer future) tt (p, cfs)
    = (Return tt, (p', cfs ++ seq (length (calls p)) (length (order ≫= out)))) /\
    running p' /\ fresh_from n0 p' /\
    calls p' = calls p ++ map consumer (order ≫= out) /\
    (forall f c, finished p f c -> finished p' f c) /\
    (forall f c, f ∈ order -> calls p !! f = Some c -> finished p' f c).
Proof.
  revert p cfs. induction order as [|f order IH]; intros p cfs Hr Hf Hin; cbn [for_list].
  - exists p. cbn. rewrite !app_nil_r. repeat split; try done.
    intros f c H. by apply elem_of_nil in H.
  - destruct (Hin f) as (Hn & c & o & Hc & Ho & Hcatch & Hout); [left|].
    pose proof (Hf f c Hn Hc) as Hs.
    unfold bind at 1. rewrite (forward_results_value consumer f c o) by done.
    rewrite <- Hout. set (p1 := submitted (complete f (complete f p)) (map consumer (out f))).
    assert (calls p1 = calls p ++ map consumer (out f)) as Hc1.
    { subst p1. by rewrite submitted_calls, !complete_calls. }
    destruct (IH p1 (cfs ++ seq (length (work_items p.1)) (length (out f))))
      as (p' & E & Hr' & Hf' & Hc' & Hmono & Hfin).
    + subst p1. apply submitted_running. unfold running. by rewrite !complete_flag.
    + subst p1. apply fresh_submitted. by do 2 apply fresh_complete.
    + intros g Hg.
      destruct (Hin g) as (Hn' & c' & o' & Hc'' & Ho' & Hcatch' & Hout'); [by right|].
      split; [done|]. exists c', o'. split; [|done].
      rewrite Hc1. by apply lookup_app_l_Some.
    + exists p'. rewrite E. rewrite bind_cons, length_app, Hc1, length_app, length_map.
      rewrite calls_length. repeat split; try done.
      * by rewrite <- app_assoc, seq_app.
      * by rewrite Hc', Hc1, map_app, app_assoc.
      * intros g c' H. apply Hmono. subst p1. apply finished_submitted.
        by do 2 apply finished_complete.
      * intros g c' Hg Hcg. apply elem_of_cons in Hg as [->|Hg].
        -- apply Hmono. subst p1. apply finished_submitted. apply finished_complete.
           apply slot_complete_finished. by apply Hf.
        -- apply Hfin; [done|]. rewrite Hc1. by apply lookup_app_l_Some.
Qed.

(** When a producer among the futures waited for ends with an exception
    outside class [Exception], the loop ends with the first such
    exception it meets. *)
Lemma pipeline_loop_exits (consumer : pyval -> call W pyval) n0 order p cfs :
  running p -> fresh_from n0 p ->
  (forall f, f ∈ order ->
     n0 <= f /\ exists c o, calls p !! f = Some c /\ (forall w, (c w).1 = o)) ->
  (exists f c o, f ∈ order /\ calls p !! f = Some c /\ (forall w, (c w).1 = o) /\
                 catchable o = false) ->
  exists f c e s',
    f ∈ order /\ calls p !! f = Some c /\ (forall w, (c w).1 = Raise e) /\
    is_exception e = false /\
    for_list order
      (fun future _ => lift (await future) ;;; forward_results consumer future) tt (p, cfs)
    = (Raise e, s').
Proof.
  revert p cfs. induction order as [|f order IH];
    intros p cfs Hr Hf Hin (f0 & c0 & o0 & Hf0 & Hc0 & Ho0 & Hx0).
  - by apply elem_of_nil in Hf0.
  - cbn [for_list]. destruct (Hin f) as (Hn & c & o & Hc & Ho); [left|].
    pose proof (Hf f c Hn Hc) as Hs.
    destruct (catchable o) eqn:Hcatch.
    + unfold bind at 1. rewrite (forward_results_value consumer f c o) by done.
      set (p1 := submitted (complete f (complete f p)) (map consumer (forward o))).
      assert (calls p1 = calls p ++ map consumer (forward o)) as Hc1.
      { subst p1. by rewrite submitted_calls, !complete_calls. }
      destruct (IH p1 (cfs ++ seq (length (work_items p.1)) (length (forward o))))
        as (g & c' & e & s' & Hg & Hcg & Hog & Hxe & E).
      * subst p1. apply submitted_running. unfold running. by rewrite !complete_flag.
      * subst p1. apply fresh_submitted. by do 2 apply fresh_complete.
      * intros g Hg. destruct (Hin g) as (Hn' & c' & o' & Hc'' & Ho'); [by right|].
        split; [done|]. exists c', o'. split; [|done].
        rewrite Hc1. by apply lookup_app_l_Some.
      * exists f0, c0, o0. split; [|split; [|done]].
        -- apply elem_of_cons in Hf0 as [->|Hf0]; [|done].
           assert (c0 = c) as -> by congruence.
           assert (o0 = o) as -> by (rewrite <- (Ho0 p.2), <- (Ho p.2); done).
           congruence.
        -- rewrite Hc1. by apply lookup_app_l_Some.
      * exists g, c', e, s'. split; [by right|]. split; [|done].
        rewrite Hc1 in Hcg. apply lookup_app_Some in Hcg as [Hcg|[Hge Hcg]]; [done|].
        exfalso. destruct (Hin g) as (_ & c'' & o'' & Hc'' & _); [by right|].
        apply lookup_lt_Some in Hc''. lia.
    + apply not_catchable in Hcatch as (e & -> & Hxe).
      exists f, c, e. eexists. split; [left|]. split; [done|]. split; [done|]. split; [done|].
      unfold bind at 1. by rewrite (forward_results_exits consumer f c e) by done.
Qed.

Lemma bind_seq_lookup {A B} (g : A -> list B) n0 (l pre : list A) :
  seq (n0 + length pre) (length l)
    ≫= (fun f => match (pre ++ l) !! (f - n0) with Some x => g x | None => [] end)
  = l ≫= g.
Proof.
  revert pre. induction l as [|x l IH]; intros pre; [done|].
  cbn [length seq]. rewrite !bind_cons.
  replace (n0 + length pre - n0) with (length pre) by lia.
  rewrite lookup_app_r by lia. rewrite Nat.sub_diag. cbn [lookup list_lookup].
  f_equal. specialize (IH (pre ++ [x])). rewrite length_app in IH; cbn [length] in IH.
  rewrite <- app_assoc in IH; cbn [app] in IH.
  replace (n0 + (length pre + 1)) with (S (n0 + length pre)) in IH by lia.
  exact IH.
Qed.

Lemma flat_map_bind {A B} (g : A -> list B) (l : list A) : flat_map g l = l ≫= g.
Proof. induction l as [|x l IH]; [done|]. cbn [flat_map]. by rewrite bind_cons, IH. Qed.

End PipelineFacts.

Section ShutdownFacts.
Context {W R : Type}.
Implicit Types (p : pool W R).

Lemma settle_length fs p : length (work_items (settle fs p).1) = length (work_items p.1).
Proof.
  revert p. induction fs as [|f fs IH]; intros p; [done|].
  unfold settle in *; simpl. by rewrite IH, complete_length.
Qed.

Lemma complete_not_pending f p wi :
  work_items (complete f p).1 !! f = Some wi -> wi_state wi <> PENDING.
Proof.
  unfold complete. destruct (work_items p.1 !! f) as [[c [| |]]|] eqn:E.
  - destruct (c p.2) as [o w']. cbn.
    rewrite list_lookup_insert_eq by (by eapply lookup_lt_Some). by intros [= <-].
  - rewrite E. by intros [= <-].
  - rewrite E. by intros [= <-].
  - by rewrite E.
Qed.

Lemma complete_keeps_not_pending g f p :
  (forall wi, work_items p.1 !! f = Some wi -> wi_state wi <> PENDING) ->
  forall wi, work_items (complete g p).1 !! f = Some wi -> wi_state wi <> PENDING.
Proof.
  intros H wi. unfold complete.
  destruct (work_items p.1 !! g) as [[c [| |]]|] eqn:E; try apply H.
  destruct (c p.2) as [o w']. cbn. destruct (decide (g = f)) as [->|Hne].
  - rewrite list_lookup_insert_eq by (by eapply lookup_lt_Some). by intros [= <-].
  - rewrite list_lookup_insert_ne by done. apply H.
Qed.

Lemma settle_not_pending fs f p wi :
  f ∈ fs -> work_items (settle fs p).1 !! f = Some wi -> wi_state wi <> PENDING.
Proof.
  revert p. induction fs as [|g fs IH]; intros p Hin; [by apply elem_of_nil in Hin|].
  cbn. apply elem_of_cons in Hin as [->|Hin]; [|by apply IH].
  clear IH. revert wi. generalize (complete_not_pending g p).
  generalize (complete g p). clear p.
  induction fs as [|h fs IH]; intros q Hq wi; [apply Hq|].
  cbn. apply IH. by apply complete_keeps_not_pending.
Qed.

End ShutdownFacts.

(** X9.  [shutdown_executor] closes the pool after draining it: it
    returns [None], the pool no longer accepts submissions, no call is
    added or dropped, every task that was pending or finished is finished,
    and no task at all is left pending. *)
Theorem shutdown_executor_drains {W : Type} (p : pool W pyval) :
  exists p',
    shutdown_executor p = (Return PNone, p') /\
    shutdown_flag p'.1 = true /\
    calls p' = calls p /\
    (forall f c, slot p f c -> finished p' f c) /\
    (forall f wi, work_items p'.1 !! f = Some wi -> wi_state wi <> PENDING).
Proof.
  unfold shutdown_executor, shutdown.
  set (q := settle (seq 0 (length (work_items p.1))) p).
  eexists. split; [done|]. cbn [fst snd shutdown_flag work_items]. repeat split.
  - unfold calls. cbn. fold (calls q). subst q. apply settle_calls.
  - intros f c Hs.
    assert (finished q f c) as [w Hw]; [|by exists w].
    subst q. apply settle_finishes; [|done]. apply elem_of_seq.
    destruct Hs as (st & Hl & _). apply lookup_lt_Some in Hl. lia.
  - intros f wi Hl. subst q. eapply settle_not_pending; [|exact Hl].
    apply elem_of_seq. apply lookup_lt_Some in Hl. rewrite settle_length in Hl. lia.
Qed.

(** X10.  Submission after shutdown is an error: on a pool that was shut
    down, [run_and_wait], [run_and_wait_multi] and [run_pipelined] with at
    least one item raise [RuntimeError] before anything is submitted and
    leave the pool as it was; with no item, [run_and_wait] and
    [run_pipelined] still return [None]. *)
Theorem submission_after_shutdown_raises {W : Type}
    (sched sched1 sched2 : list nat)
    (func producer consumer : pyval -> call W pyval) (func_multi : list pyval -> call W pyval)
    (item : pyval) (rest : list pyval) (p : pool W pyval) :
  shutdown_flag p.1 = true ->
  run_and_wait sched func (item :: rest) p
  = (Raise (RuntimeError "cannot schedule new futures after shutdown"), p) /\
  run_and_wait_multi func_multi (item :: rest) p
  = (Raise (RuntimeError "cannot schedule new futures after shutdown"), p) /\
  run_pipelined sched1 sched2 producer consumer (item :: rest) p
  = (Raise (RuntimeError "cannot schedule new futures after shutdown"), p) /\
  run_and_wait sched func [] p = (Return PNone, p) /\
  run_pipelined sched1 sched2 producer consumer [] p = (Return PNone, p).
Proof.
  intros H. repeat split.
  - unfold run_and_wait. cbn [for_list]. unfold bind, submit. by rewrite H.
  - unfold run_and_wait_multi, Executor_map. cbn [map submit_all].
    unfold bind, submit. by rewrite H.
  - unfold run_pipelined. cbn [map submit_all]. unfold bind, submit. by rewrite H.
  - unfold run_and_wait. cbn [for_list]. unfold bind, ret, wait. cbn [app].
    by destruct sched.
  - unfold run_pipelined. cbn [map submit_all]. unfold bind at 1. unfold ret at 1.
    unfold bind at 1. unfold with_local.
    assert (completion_order sched1 (@nil nat) = []) as -> by (by destruct sched1).
    cbn [for_list]. unfold ret at 1. by destruct p.
Qed.

Lemma submission_after_shutdown_raises_witness :
  run_and_wait [] demo_producer [PInt 1] (shutdown_executor (tp, tt)).2
  = (Raise (RuntimeError "cannot schedule new futures after shutdown"),
     (shutdown_executor (tp, tt)).2) /\
  run_pipelined [] [] demo_producer demo_consumer [] (shutdown_executor (tp, tt)).2
  = (Return PNone, (shutdown_executor (tp, tt)).2).
Proof.
  destruct (submission_after_shutdown_raises [] [] [] demo_producer demo_producer
              demo_consumer demo_add (PInt 1) [] (shutdown_executor (tp, tt)).2 eq_refl)
    as (H1 & _ & _ & _ & H5).
  split; [exact H1|exact H5].
Defined.



Lemma leaf_modules_app env a b la lb :
  leaf_modules env a = Some la -> leaf_modules env b = Some lb ->
  leaf_modules env (a ++ b) = Some (la ++ lb).
Proof.
  revert la. induction a as [|d a IH]; intros la Ha Hb; cbn [app leaf_modules] in *.
  - by injection Ha as <-.
  - destruct (gen_list (walk_packages env [osPath_join (root env) d])) as [ms|]; [|done].
    destruct (leaf_modules env a) as [rest|]; [|done]. injection Ha as <-.
    rewrite (IH rest eq_refl Hb). by rewrite app_assoc.
Qed.

(** X12.  Discovery composes over categories: on a tree whose walks
    succeed and where no load of a leaf module ends with an exception
    outside class [Exception], [sources] called with two non-empty lists
    of categories put together returns, up to order, what the two separate
    calls return, put together. *)
Theorem sources_categories_compose
    (env : Env) (sched1 sched2 sched12 : list nat) (ret_all : bool)
    d dirs files rest (c1 : string) (cs1 : list string) (c2 : string) (cs2 : list string)
    (leaves1 leaves2 : list ModuleInfo) (lg : log) :
  osWalk env (root env) = (d, dirs, files) :: rest ->
  leaf_modules env (c1 :: cs1) = Some leaves1 ->
  leaf_modules env (c2 :: cs2) = Some leaves2 ->
  (forall mi, mi ∈ leaves1 ++ leaves2 ->
              catchable (load_outcome (module_finder mi) (name mi)) = true) ->
  exists l1 lg1 l2 lg2 l12 lg12,
    sources env sched1 (PList (map PStr (c1 :: cs1))) ret_all lg = (Return l1, lg1) /\
    sources env sched2 (PList (map PStr (c2 :: cs2))) ret_all lg = (Return l2, lg2) /\
    sources env sched12 (PList (map PStr ((c1 :: cs1) ++ c2 :: cs2))) ret_all lg
    = (Return l12, lg12) /\
    l12 ≡ₚ l1 ++ l2.
Proof.
  intros Hw H1 H2 Hc.
  destruct (sources_value env sched1 (Some (c1 :: cs1)) ret_all _ _ _ _ _ lg Hw H1)
    as (l1 & lg1 & E1 & P1).
  { intros mi Hmi. apply Hc, elem_of_app. by left. }
  destruct (sources_value env sched2 (Some (c2 :: cs2)) ret_all _ _ _ _ _ lg Hw H2)
    as (l2 & lg2 & E2 & P2).
  { intros mi Hmi. apply Hc, elem_of_app. by right. }
  destruct (sources_value env sched12 (Some ((c1 :: cs1) ++ c2 :: cs2)) ret_all
              _ _ _ _ (leaves1 ++ leaves2) lg Hw) as (l12 & lg12 & E12 & P12).
  { apply (leaf_modules_app env (c1 :: cs1) (c2 :: cs2)); done. }
  { done. }
  exists l1, lg1, l2, lg2, l12, lg12. repeat split; try done.
  by rewrite P12, P1, P2, List.filter_app, omap_app.
Qed.

Lemma sources_categories_compose_witness :
  exists l1 lg1 l2 lg2 l12 lg12,
    sources demo_env [1] (PList [PStr "a"]) true [] = (Return l1, lg1) /\
    sources demo_env [] (PList [PStr "b"]) true [] = (Return l2, lg2) /\
    sources demo_env [2] (PList [PStr "a"; PStr "b"]) true [] = (Return l12, lg12) /\
    l12 ≡ₚ l1 ++ l2.
Proof.
  apply (sources_categories_compose demo_env [1] [] [2] true
           demo_root ["a"; "b"] [] [] "a" [] "b" [] demo_a demo_b []);
    try reflexivity.
  intros mi Hmi. apply list_elem_of_In in Hmi.
  destruct Hmi as [<-|[<-|[<-|[]]]]; reflexivity.
Defined.

Section MapJoinFacts.
Context {W : Type}.
Implicit Types (p : pool W pyval) (func : list pyval -> call W pyval).

Lemma next_finishes func t (fu : nat) (bg : list nat) p :
  slot p fu (star_args func (PTuple t)) ->
  finished (complete fu (settle bg p)) fu (star_args func (PTuple t)).
Proof. intros Hs. apply slot_complete_finished. by apply slot_settle. Qed.

Lemma drain_joins func (f : list pyval -> pyval) ts fs bgs p :
  Forall2 (fun fu t => slot p fu (star_args func (PTuple t))) fs ts ->
  (forall t w, t ∈ ts -> (func t w).1 = Return (f t)) ->
  exists p',
    drain (S (length fs)) bgs (ResultIterator fs) p = (Return (map f ts), p') /\
    Forall2 (fun fu t => finished p' fu (star_args func (PTuple t))) fs ts /\
    (forall g c, finished p g c -> finished p' g c).
Proof.
  revert fs bgs p. induction ts as [|t ts IH]; intros fs bgs p HF Hd.
  - apply Forall2_nil_inv_r in HF as ->. eexists. split; [done|]. split; [constructor|done].
  - apply Forall2_cons_inv_r in HF as (fu & fs' & Hs & HF & ->).
    cbn [length]. rewrite drain_S.
    rewrite (next_yields func t (f t)); [|done|intros w; apply Hd; by left].
    destruct (IH fs' (tl bgs) (complete fu (settle (hd [] bgs) p))) as (p' & Hp' & HF' & Hm).
    + by apply (slots_step func fs' ts p fu).
    + intros t' w Ht'. apply Hd. by right.
    + rewrite Hp'. eexists. split; [done|]. split.
      * constructor; [|done]. apply Hm.
        by apply next_finishes.
      * intros g c Hg. apply Hm. apply finished_complete. by apply finished_settle.
Qed.

End MapJoinFacts.

(** X13.  Iterating the result of [run_and_wait_multi] to its end joins
    the batch: on a running pool, for a function that returns on every
    tuple, once [list(results)] has returned every task of the call has
    finished, whatever the workers did in the meantime. *)
Theorem run_and_wait_multi_joins_when_drained {W : Type}
    (func : list pyval -> call W pyval) (f : list pyval -> pyval)
    (tuples : list (list pyval)) (bgs : list (list nat)) (p : pool W pyval) :
  running p ->
  (forall t w, t ∈ tuples -> (func t w).1 = Return (f t)) ->
  exists it p1 p2,
    run_and_wait_multi func (map PTuple tuples) p = (Return it, p1) /\
    py_list bgs it p1 = (Return (map f tuples), p2) /\
    forall i t, tuples !! i = Some t ->
                finished p2 (length (calls p) + i) (star_args func (PTuple t)).
Proof.
  intros Hr Hd. rewrite run_and_wait_multi_submits by done.
  pose proof (submitted_slots p (map (star_args func) (map PTuple tuples))) as HF.
  rewrite !length_map in *. rewrite map_map in *.
  apply (proj1 (Forall2_fmap_r _ _ _ _)) in HF.
  destruct (drain_joins func f tuples _ bgs _ HF Hd) as (p2 & E & HF2 & _).
  eexists _, _, p2. split; [done|]. split.
  - unfold py_list. cbn [remaining]. by rewrite length_seq in E |- *.
  - intros i t Hi. rewrite calls_length.
    eapply (Forall2_lookup_lr _ _ _ i) in HF2; [exact HF2| |exact Hi].
    apply lookup_seq. split; [done|]. by eapply lookup_lt_Some.
Qed.

Lemma run_and_wait_multi_joins_when_drained_witness :
  exists it p1 p2,
    run_and_wait_multi demo_add
      (map PTuple [[PInt 1; PInt 2]; [PInt 3; PInt 4]]) (tp, tt) = (Return it, p1) /\
    py_list [[1]] it p1 = (Return [PInt 3; PInt 7], p2) /\
    finished p2 1 (star_args demo_add (PTuple [PInt 3; PInt 4])).
Proof.
  destruct (run_and_wait_multi_joins_when_drained demo_add demo_sum
              [[PInt 1; PInt 2]; [PInt 3; PInt 4]] [[1]] (tp, tt) eq_refl)
    as (it & p1 & p2 & E1 & E2 & F).
  - intros t w Ht. apply list_elem_of_In in Ht. destruct Ht as [<-|[<-|[]]]; reflexivity.
  - exists it, p1, p2. split; [exact E1|]. split; [exact E2|].
    apply (F 1 [PInt 3; PInt 4]). reflexivity.
Defined.

(** X14.  On a running pool, with a producer whose outcome on each item
    is [P item], a value or an exception of class [Exception],
    [run_pipelined] submits one producer task per item and then consumer
    tasks exactly for the values forwarded by the producers that
    returned: nothing when the producer raised or its result is falsy
    ([None], an empty list, string or tuple, [0], [False]), one task for a
    truthy result that is not a list, one task per element of a list.
    The consumer tasks are these values up to order; a failing producer
    stops neither the other producers nor the consumers; the call returns
    [None] when every task it submitted has finished. *)
Theorem run_pipelined_forwards {W : Type}
    (sched1 sched2 : list nat) (producer consumer : pyval -> call W pyval)
    (P : pyval -> outcome pyval) (items : list pyval) (p : pool W pyval) :
  running p ->
  (forall x w, x ∈ items -> (producer x w).1 = P x) ->
  (forall x, x ∈ items -> catchable (P x) = true) ->
  exists p' forwarded,
    run_pipelined sched1 sched2 producer consumer items p = (Return PNone, p') /\
    calls p' = calls p ++ map producer items ++ map consumer forwarded /\
    forwarded ≡ₚ flat_map (fun x => forward (P x)) items /\
    all_finished_from (length (calls p)) p'.
Proof.
  intros Hr Hd Hcatch. unfold run_pipelined. unfold bind at 1.
  rewrite submit_all_submitted by done. rewrite length_map.
  set (n0 := length (work_items p.1)).
  set (p1 := submitted p (map producer items)).
  set (order := completion_order sched1 (seq n0 (length items))).
  set (out := fun f : nat =>
                match items !! (f - n0) with Some x => forward (P x) | None => [] end).
  assert (forall f, f ∈ order <-> n0 <= f < n0 + length items) as Horder.
  { intros f. subst order. rewrite completion_order_perm. apply elem_of_seq. }
  assert (length (calls p1) = n0 + length items) as Hlen1.
  { subst p1. by rewrite submitted_calls, length_app, calls_length, length_map. }
  destruct (pipeline_loop consumer out n0 order p1 []) as (p' & E & Hr' & Hf' & Hc' & _ & Hfin).
  - by apply submitted_running.
  - apply fresh_submitted, fresh_initial.
  - intros f Hf. apply Horder in Hf. split; [lia|].
    destruct (lookup_lt_is_Some_2 items (f - n0)) as [x Hx]; [lia|].
    exists (producer x), (P x). repeat split.
    + subst p1. rewrite submitted_calls, lookup_app_r by (rewrite calls_length; lia).
      rewrite calls_length. fold n0. by rewrite list_lookup_fmap, Hx.
    + intros w. apply Hd. by eapply list_elem_of_lookup_2.
    + apply Hcatch. by eapply list_elem_of_lookup_2.
    + subst out. cbn. by rewrite Hx.
  - unfold bind at 1. unfold with_local. rewrite E. cbn [app].
    unfold bind at 1. rewrite wait_or_skip. unfold ret.
    exists (settle (completion_order sched2 (seq (length (calls p1)) (length (order ≫= out)))) p'),
           (order ≫= out).
    split; [done|]. split; [|split].
    + rewrite settle_calls, Hc'. subst p1. by rewrite submitted_calls, app_assoc.
    + subst order. rewrite completion_order_perm.
      assert (seq n0 (length items) ≫= out = flat_map (fun x => forward (P x)) items)
        as ->; [|done].
      etrans; [|symmetry; apply flat_map_bind].
      rewrite <- (bind_seq_lookup (fun x => forward (P x)) n0 items []).
      cbn [length app]. by rewrite Nat.add_0_r.
    + intros f c Hn Hc. rewrite settle_calls, Hc' in Hc. rewrite calls_length in Hn. fold n0 in Hn.
      destruct (decide (f < length (calls p1))) as [Hlt|Hge].
      * rewrite lookup_app_l in Hc by done. apply finished_settle.
        apply Hfin; [|done]. apply Horder. lia.
      * apply settle_finishes.
        -- rewrite completion_order_perm. apply elem_of_seq.
           apply lookup_lt_Some in Hc. rewrite length_app, length_map in Hc. lia.
        -- apply Hf'; [done|]. by rewrite Hc'.
Qed.

Lemma run_pipelined_forwards_witness :
  exists p' forwarded,
    run_pipelined [2; 0] [1] demo_producer demo_consumer [PInt 1; PInt 2; PInt 3] (tp, tt)
    = (Return PNone, p') /\
    calls p' = map demo_producer [PInt 1; PInt 2; PInt 3] ++ map demo_consumer forwarded /\
    forwarded ≡ₚ [PInt 10; PInt 11; PInt 20].
Proof.
  destruct (run_pipelined_forwards [2; 0] [1] demo_producer demo_consumer
              (fun x => (demo_producer x tt).1) [PInt 1; PInt 2; PInt 3] (tp, tt) eq_refl)
    as (p' & fw & E & Hc & Hp & _).
  - intros x [] _. reflexivity.
  - intros x Hx. apply list_elem_of_In in Hx. destruct Hx as [<-|[<-|[<-|[]]]]; reflexivity.
  - exists p', fw. split; [exact E|]. split; [exact Hc|exact Hp].
Defined.

(** X15.  [run_pipelined] does not contain an exception outside class
    [Exception]: on a running pool, when the producer ends with such an
    exception on some item, the call raises one of these exceptions, the
    first the loop over the completed producers meets. *)
Theorem run_pipelined_propagates_system_exit {W : Type}
    (sched1 sched2 : list nat) (producer consumer : pyval -> call W pyval)
    (P : pyval -> outcome pyval) (items : list pyval) (p : pool W pyval) :
  running p ->
  (forall x w, x ∈ items -> (producer x w).1 = P x) ->
  (exists x, x ∈ items /\ catchable (P x) = false) ->
  exists x e p',
    x ∈ items /\ P x = Raise e /\ is_exception e = false /\
    run_pipelined sched1 sched2 producer consumer items p = (Raise e, p').
Proof.
  intros Hr Hd (x0 & Hx0 & Hcx0). unfold run_pipelined. unfold bind at 1.
  rewrite submit_all_submitted by done. rewrite length_map.
  set (n0 := length (work_items p.1)).
  set (p1 := submitted p (map producer items)).
  set (order := completion_order sched1 (seq n0 (length items))).
  assert (forall f, f ∈ order <-> n0 <= f < n0 + length items) as Horder.
  { intros f. subst order. rewrite completion_order_perm. apply elem_of_seq. }
  assert (forall f x, items !! (f - n0) = Some x -> n0 <= f ->
                      calls p1 !! f = Some (producer x)) as Hcall.
  { intros f x Hx Hn. subst p1.
    rewrite submitted_calls, lookup_app_r by (rewrite calls_length; fold n0; lia).
    rewrite calls_length. fold n0. by rewrite list_lookup_fmap, Hx. }
  destruct (pipeline_loop_exits consumer n0 order p1 [])
    as (f & c & e & s' & Hf & Hc & Ho & Hxe & E).
  - by apply submitted_running.
  - apply fresh_submitted, fresh_initial.
  - intros f Hf. apply Horder in Hf. split; [lia|].
    destruct (lookup_lt_is_Some_2 items (f - n0)) as [x Hx]; [lia|].
    exists (producer x), (P x). split; [apply Hcall; [done|lia]|].
    intros w. apply Hd. by eapply list_elem_of_lookup_2.
  - apply list_elem_of_lookup in Hx0 as [i Hi].
    exists (n0 + i), (producer x0), (P x0).
    assert (n0 + i - n0 = i) as Hsub by lia.
    split; [|split; [|split; [|done]]].
    + apply Horder. apply lookup_lt_Some in Hi. lia.
    + apply Hcall; [by rewrite Hsub|lia].
    + intros w. apply Hd. by eapply list_elem_of_lookup_2.
  - apply Horder in Hf.
    destruct (lookup_lt_is_Some_2 items (f - n0)) as [x Hx]; [lia|].
    rewrite (Hcall f x Hx) in Hc by lia. injection Hc as <-.
    assert (x ∈ items) as Hin by (by eapply list_elem_of_lookup_2).
    destruct s' as [q cfs']. exists x, e, q. split; [done|]. split.
    + rewrite <- (Hd x p.2 Hin). apply Ho.
    + split; [done|]. unfold bind at 1. unfold with_local. by rewrite E.
Qed.

Lemma run_pipelined_propagates_system_exit_witness :
  exists p',
    run_pipelined [1] [] exiting_producer demo_consumer [PInt 1; PInt 2; PInt 3] (tp, tt)
    = (Raise (SystemExit "2"), p').
Proof.
  destruct (run_pipelined_propagates_system_exit [1] [] exiting_producer demo_consumer
              (fun x => (exiting_producer x tt).1) [PInt 1; PInt 2; PInt 3] (tp, tt) eq_refl)
    as (x & e & p' & Hx & He & _ & E).
  - intros x [] _. reflexivity.
  - exists (PInt 2). split; [|reflexivity]. apply list_elem_of_In. cbn. tauto.
  - exists p'. rewrite E. f_equal. f_equal.
    apply list_elem_of_In in Hx. destruct Hx as [<-|[<-|[<-|[]]]]; cbn in He;
      try discriminate He. by injection He as <-.
Defined.
